(** * openapi-autodoc: the tag-grouping and bundling pipeline of
      [src/pages/index.tsx], embedded and verified.

    The development follows the file top to bottom: the JavaScript values
    the code manipulates (strings, template literals, [Map], thrown
    [TypeError]s), the OpenAPI data model, then [createGitBookOpenAPITag],
    [createTagPage], [createSummaryFile], [createReadmeFile],
    [createZipBundle], [makePagesForTagGroups], [collateTags] and the part
    of [handleFileUpload] that chains them. *)

From Stdlib Require Import List String Ascii Bool Arith ZArith Lia.
Import ListNotations.
Local Open Scope list_scope.
Local Open Scope string_scope.

(** ** JavaScript values *)

(** Strings are sequences of bytes (the UTF-8 encoding of the JavaScript
    string).  The two characters that cannot be typed inside a literal are
    built from their codes. *)
Definition nl : string := String (ascii_of_nat 10) EmptyString.
Definition dq : string := String (ascii_of_nat 34) EmptyString.

(** A thrown exception.  The functions of this file raise only the
    [TypeError] of a property read on [undefined]: [reading] is the name of
    the property (Cannot read properties of undefined (reading '...')).
    [ParserError] stands for whatever [YAML.parse] or
    [SwaggerParser.validate] reject the input with. *)
Inductive JsError : Type :=
| TypeError (reading : string)
| ParserError (message : string).

(** A computation that either throws or returns. *)
Definition result (A : Type) : Type := (JsError + A)%type.

Definition ret {A : Type} (a : A) : result A := inr a.
Definition throw {A : Type} (e : JsError) : result A := inl e.
Definition bind {A B : Type} (c : result A) (k : A -> result B) : result B :=
  match c with
  | inl e => inl e
  | inr a => k a
  end.

Notation "x <- c ;; k" := (bind c (fun x => k))
  (at level 61, c at next level, right associativity).

(** [xs.forEach(f)] for a callback that may throw, over a threaded state. *)
Fixpoint forEach {A S : Type} (f : S -> A -> result S) (xs : list A) (s : S)
  : result S :=
  match xs with
  | [] => ret s
  | x :: xs' => s' <- f s x ;; forEach f xs' s'
  end.

(** [xs.map(f)] for a callback that may throw. *)
Fixpoint mapM {A B : Type} (f : A -> result B) (xs : list A) : result (list B) :=
  match xs with
  | [] => ret []
  | x :: xs' => y <- f x ;; ys <- mapM f xs' ;; ret (y :: ys)
  end.

(** [`${v}`] for a value that is a string or [undefined]. *)
Definition interpolate (v : option string) : string :=
  match v with
  | Some s => s
  | None => "undefined"
  end.

(** [xs.join(sep)]. *)
Fixpoint join (sep : string) (xs : list string) : string :=
  match xs with
  | [] => EmptyString
  | [x] => x
  | x :: xs' => x ++ sep ++ join sep xs'
  end.

(** [String.prototype.trim].  On byte strings the white space removed is
    the ASCII part of the ECMAScript set (TAB, LF, VT, FF, CR, SP); the
    multi-byte members (U+00A0, U+FEFF, the Zs class) never stand at either
    end of the one string this program trims, which starts with LF and [#]
    and ends with [)], [undefined] or [%}] followed by LF and spaces. *)
Definition isWhiteSpace (c : ascii) : bool :=
  let n := nat_of_ascii c in
  (((9 <=? n) && (n <=? 13)) || (n =? 32))%nat.

Fixpoint trimStart (s : string) : string :=
  match s with
  | EmptyString => EmptyString
  | String c r => if isWhiteSpace c then trimStart r else s
  end.

Fixpoint trimEnd (s : string) : string :=
  match s with
  | EmptyString => EmptyString
  | String c r =>
      match trimEnd r with
      | EmptyString => if isWhiteSpace c then EmptyString else String c EmptyString
      | r' => String c r'
      end
  end.

Definition trim (s : string) : string := trimEnd (trimStart s).

(** ** [Map]: insertion-ordered, keys compared by [eqb] *)

Section JsMap.
Context {K V : Type}.
Variable eqb : K -> K -> bool.

(** [m.get(k)]; [None] is [undefined]. *)
Fixpoint map_get (k : K) (m : list (K * V)) : option V :=
  match m with
  | [] => None
  | (k', v) :: m' => if eqb k k' then Some v else map_get k m'
  end.

(** [m.set(k, v)]: an existing key keeps its position, a new key goes
    last. *)
Fixpoint map_set (k : K) (v : V) (m : list (K * V)) : list (K * V) :=
  match m with
  | [] => [(k, v)]
  | (k', v') :: m' =>
      if eqb k k' then (k', v) :: m' else (k', v') :: map_set k v m'
  end.
End JsMap.

(** ** The OpenAPI data model (the parts of [openapi-types] the code reads) *)

Module ExternalDocs.
Record t : Type := mk {
  description : option string;
  url : string
}.
End ExternalDocs.

Module TagObject.
Record t : Type := mk {
  name : string;
  description : option string;
  externalDocs : option ExternalDocs.t
}.
End TagObject.

(** An entry of a path item.  The code reads only [tags]; [None] is an
    entry without that property (an operation that declares no [tags]
    field, or a path-level [parameters], [summary] or [servers] entry,
    which [Object.entries] lists like the operations).  The other operation
    fields are carried along unread.  An entry is an object: a path item
    or an entry that is [null] (on which [Object.entries], or the read of
    [tags], throws before anything is grouped) is not a value of these
    types, and no statement below speaks about such a document. *)
Module OperationObject.
Record t : Type := mk {
  tags : option (list string);
  operationId : option string;
  summary : option string
}.
End OperationObject.

(** A path item, as [Object.entries] lists it. *)
Definition OperationsObject : Type := list (string * OperationObject.t).

Module Document.
Record t : Type := mk {
  title : string;                                (* info.title *)
  paths : list (string * OperationsObject);      (* Object.entries(paths) *)
  tags : option (list TagObject.t)               (* absent or an array *)
}.
End Document.

Module Endpoint.
Record t : Type := mk {
  operationObject : OperationObject.t;
  path : string;
  operation : string
}.
End Endpoint.

Module GitBookFile.
Record t : Type := mk {
  path : string;
  contents : string
}.
End GitBookFile.

(** ** References to tag objects

    The grouping [Map] compares its keys by object identity.  A reference
    is an address together with the object stored there: address [0] is
    the object literal [untaggedTag] that [collateTags] allocates, address
    [S i] is the element [api.tags[i]].  [Array.prototype.find] returns the
    first element whose name matches, so two references it returns have the
    same address exactly when they are the same object. *)
Module TagRef.
Record t : Type := mk {
  addr : nat;
  target : TagObject.t
}.
End TagRef.

(** A key of the grouping: a tag object, or [undefined]. *)
Definition TagKey : Type := option TagRef.t.

(** SameValueZero on keys. *)
Definition key_eqb (a b : TagKey) : bool :=
  match a, b with
  | None, None => true
  | Some x, Some y => Nat.eqb (TagRef.addr x) (TagRef.addr y)
  | _, _ => false
  end.

Definition TagMap : Type := list (TagKey * list Endpoint.t).

(** ** [createGitBookOpenAPITag] *)

Definition createGitBookOpenAPITag (endpoint : Endpoint.t) : string :=
  nl ++
  "{% swagger src=" ++ dq ++ "./.gitbook/assets/openapi.yaml" ++ dq ++
  " path=" ++ dq ++ Endpoint.path endpoint ++ dq ++
  " method=" ++ dq ++ Endpoint.operation endpoint ++ dq ++ " %}" ++ nl ++
  "[openapi.yaml](<./.gitbook/assets/openapi.yaml>)" ++ nl ++
  "{% endswagger %}" ++ nl ++
  "  ".

(** ** [createTagPage]

    [tag] is whatever the grouping has as a key: a tag object or
    [undefined], on which the read of [name] throws. *)

(** [tag.externalDocs && `[${...description}](${...url})`], interpolated:
    an object is truthy and gives the link, [undefined] gives itself. *)
Definition externalDocsLine (externalDocs : option ExternalDocs.t) : string :=
  interpolate
    (match externalDocs with
     | Some d =>
         Some ("[" ++ interpolate (ExternalDocs.description d) ++ "](" ++
               ExternalDocs.url d ++ ")")
     | None => None
     end).

Definition createTagPage (tag : option TagObject.t) (endpoints : list Endpoint.t)
  : result GitBookFile.t :=
  match tag with
  | None => throw (TypeError "name")
  | Some tag =>
      let path := TagObject.name tag ++ ".md" in
      ret {| GitBookFile.path := path;
             GitBookFile.contents :=
               trim (nl ++
                     "# " ++ TagObject.name tag ++ nl ++
                     nl ++
                     interpolate (TagObject.description tag) ++ nl ++
                     nl ++
                     externalDocsLine (TagObject.externalDocs tag) ++ nl ++
                     nl ++
                     join (nl ++ nl) (map createGitBookOpenAPITag endpoints) ++ nl ++
                     "  ") |}
  end.

(** ** [createSummaryFile] and [createReadmeFile] *)

Definition summaryLink (file : GitBookFile.t) : string :=
  "[" ++ GitBookFile.path file ++ "](" ++ GitBookFile.path file ++ ")".

Definition createSummaryFile (gitBookFiles : list GitBookFile.t) : string :=
  "# Table of contents" ++ nl ++
  nl ++
  join nl (map summaryLink gitBookFiles).

Definition createReadmeFile (spec : Document.t) : string :=
  "# " ++ Document.title spec.

(** ** The archive: [JSZip]

    The library is not part of the repository; this is the part of JSZip 3
    that [createZipBundle] drives.  An archive is the insertion-ordered
    table [files] from entry names to entries.  Every entry is stamped with
    [new Date()] when it is added: [now n] is the [n]-th reading of the
    clock and [reads] counts the readings made so far.  A folder handle
    shares the table of the archive it was taken from and differs only in
    its [root] prefix, so the table is threaded and the prefix is passed. *)
Module JSZip.

Record ZipObject : Type := mkObject {
  dir : bool;
  data : string;
  date : Z
}.

Record t : Type := mk {
  files : list (string * ZipObject);
  reads : nat
}.

Definition empty : t := {| files := []; reads := 0 |}.

(** [path.slice(-1) === "/"]. *)
Fixpoint endsWithSlash (path : string) : bool :=
  match path with
  | EmptyString => false
  | String c EmptyString => Ascii.eqb c "/"%char
  | String _ r => endsWithSlash r
  end.

Definition forceTrailingSlash (path : string) : string :=
  if endsWithSlash path then path else path ++ "/".

(** [path.lastIndexOf("/")]; [None] is [-1]. *)
Fixpoint lastIndexOfSlash (path : string) : option nat :=
  match path with
  | EmptyString => None
  | String c r =>
      match lastIndexOfSlash r with
      | Some i => Some (S i)
      | None => if Ascii.eqb c "/"%char then Some 0 else None
      end
  end.

Definition parentFolder (path : string) : string :=
  let path :=
    if endsWithSlash path then substring 0 (String.length path - 1) path
    else path in
  match lastIndexOfSlash path with
  | Some (S i) => substring 0 (S i) path
  | _ => EmptyString
  end.

Section Clock.
Variable now : nat -> Z.

(** [fileAdd] with the default [createFolders: true]; the call of
    [folderAdd] on the parent is unfolded in place.  The recursion is on
    [fuel]; [file] and [folder] pass the length of the name, which is
    enough (see [fileAdd_fuel] below): a parent is strictly shorter than
    its child. *)
Fixpoint fileAdd (fuel : nat) (name data : string) (isDir : bool) (zip : t) : t :=
  let date := now (reads zip) in
  let zip := {| files := files zip; reads := S (reads zip) |} in
  let name := if isDir then forceTrailingSlash name else name in
  let parent := parentFolder name in
  let zip :=
    match parent with
    | EmptyString => zip
    | _ =>
        let folder := forceTrailingSlash parent in
        match map_get String.eqb folder (files zip), fuel with
        | None, S fuel' => fileAdd fuel' folder EmptyString true zip
        | _, _ => zip
        end
    end in
  {| files := map_set String.eqb name
                {| dir := isDir; data := data; date := date |} (files zip);
     reads := reads zip |}.

Definition folderAdd (name : string) (zip : t) : string * t :=
  let name := forceTrailingSlash name in
  match map_get String.eqb name (files zip) with
  | Some _ => (name, zip)
  | None => (name, fileAdd (String.length name) name EmptyString true zip)
  end.

(** [zip.file(name, data)] on a handle rooted at [root]. *)
Definition file (root name data : string) (zip : t) : t :=
  fileAdd (String.length (root ++ name)) (root ++ name) data false zip.

(** [zip.folder(name)]: the archive and the root of the new handle. *)
Definition folder (root name : string) (zip : t) : string * t :=
  folderAdd (root ++ name) zip.
End Clock.

(** What an archive holds, stamps apart: each entry's name, whether it
    is a folder, and its contents, in table order. *)
Definition logical (zip : t) : list (string * (bool * string)) :=
  map (fun '(name, o) => (name, (dir o, data o))) (files zip).

(** The contents of the file stored under [name], if there is one. *)
Definition read (name : string) (zip : t) : option string :=
  match map_get String.eqb name (files zip) with
  | Some o => if dir o then None else Some (data o)
  | None => None
  end.
End JSZip.

(** ** [createZipBundle]

    [bundle.generateAsync] serialises the table; the result here is the
    table itself. *)
Section Bundle.
Variable now : nat -> Z.

Definition createZipBundle (gitBookFiles : list GitBookFile.t) (spec : string)
    (parsedSpec : Document.t) : JSZip.t :=
  let bundle := JSZip.empty in
  let bundle := JSZip.file now EmptyString "SUMMARY.md" (createSummaryFile gitBookFiles) bundle in
  let bundle := JSZip.file now EmptyString "README.md" (createReadmeFile parsedSpec) bundle in
  let bundle :=
    fold_left
      (fun bundle f =>
         JSZip.file now EmptyString (GitBookFile.path f) (GitBookFile.contents f) bundle)
      gitBookFiles bundle in
  let '(gitbookPrivateFolder, bundle) := JSZip.folder now EmptyString ".gitbook" bundle in
  JSZip.file now gitbookPrivateFolder "openapi.yaml" spec bundle.
End Bundle.

(** ** [makePagesForTagGroups] *)

Definition makePagesForTagGroups (map : TagMap) : result (list GitBookFile.t) :=
  mapM (fun '(tag, endpoint) => createTagPage (option_map TagRef.target tag) endpoint)
       map.

(** ** [collateTags] *)

Definition untaggedTag : TagRef.t :=
  {| TagRef.addr := 0;
     TagRef.target := {| TagObject.name := "__internal-untagged";
                         TagObject.description := None;
                         TagObject.externalDocs := None |} |}.

(** [Object.entries(api.paths).flatMap(...)].  Every path item is an
    object here, so that [Object.entries] returns on each of them; on a
    [null] path item it throws, a case the document type leaves out. *)
Definition operations (api : Document.t) : list Endpoint.t :=
  flat_map
    (fun '(path, operations) =>
       map (fun '(operation, operationObject) =>
              {| Endpoint.operationObject := operationObject;
                 Endpoint.path := path;
                 Endpoint.operation := operation |})
           operations)
    (Document.paths api).

(** [tags.find(({ name }) => name === tagName)], over the elements from
    index [i] on: the first match, as a reference, or [undefined]. *)
Fixpoint find (i : nat) (tags : list TagObject.t) (tagName : string) : TagKey :=
  match tags with
  | [] => None
  | tag :: tags' =>
      if String.eqb (TagObject.name tag) tagName
      then Some {| TagRef.addr := S i; TagRef.target := tag |}
      else find (S i) tags' tagName
  end.

(** [tagMap.set(tag, [...(tagMap.get(tag) || []), endpoint])]. *)
Definition append (tag : TagKey) (endpoint : Endpoint.t) (tagMap : TagMap) : TagMap :=
  map_set key_eqb tag
    ((match map_get key_eqb tag tagMap with
      | Some endpoints => endpoints
      | None => []
      end) ++ [endpoint])%list
    tagMap.

(** The body of [operations.forEach].  The entry is an object: the read
    of [tags] returns, and the first exception that can arise is the read
    of [length] on a missing [tags]. *)
Definition collateOperation (api : Document.t) (tagMap : TagMap) (endpoint : Endpoint.t)
  : result TagMap :=
  match OperationObject.tags (Endpoint.operationObject endpoint) with
  | None => throw (TypeError "length")
  | Some tags =>
      let tagMap :=
        if Nat.eqb (List.length tags) 0
        then append (Some untaggedTag) endpoint tagMap
        else tagMap in
      forEach
        (fun tagMap tagName =>
           match Document.tags api with
           | None => throw (TypeError "find")
           | Some apiTags => ret (append (find 0 apiTags tagName) endpoint tagMap)
           end)
        tags tagMap
  end.

Definition collateTags (api : Document.t) : result TagMap :=
  forEach (collateOperation api) (operations api) [].

(** ** [handleFileUpload], from the decoded text on

    [parse] is [YAML.parse] followed by [SwaggerParser.validate]; both are
    libraries.  The result is the archive handed to the download link, or
    the exception that ends the handler. *)
Section Run.
Variable parse : string -> result Document.t.
Variable now : nat -> Z.

Definition handleFileUpload (filecontentsdecoded : string) : result JSZip.t :=
  api <- parse filecontentsdecoded ;;
  endpointsGroupedByTag <- collateTags api ;;
  pages <- makePagesForTagGroups endpointsGroupedByTag ;;
  ret (createZipBundle now pages filecontentsdecoded api).
End Run.

(** ** Vocabulary of the statements *)

(** The group stored under a key; a key that was never inserted has no
    endpoints. *)
Definition group (tag : TagKey) (tagMap : TagMap) : list Endpoint.t :=
  match map_get key_eqb tag tagMap with
  | Some endpoints => endpoints
  | None => []
  end.

Definition keys (tagMap : TagMap) : list TagKey := map fst tagMap.

(** Whether a key is among the keys of a table. *)
Definition hasKey (tag : TagKey) (ks : list TagKey) : bool :=
  existsb (key_eqb tag) ks.

(** No two entries of a table have the same key. *)
Fixpoint uniqueKeys (ks : list TagKey) : bool :=
  match ks with
  | [] => true
  | k :: ks' => negb (hasKey k ks') && uniqueKeys ks'
  end.

(** [api.tags], with no array read as the empty one. *)
Definition declaredTags (api : Document.t) : list TagObject.t :=
  match Document.tags api with
  | Some tags => tags
  | None => []
  end.

(** The keys [collateTags] files an endpoint under, in the order of its
    [tagMap.set] calls. *)
Definition keysOf (api : Document.t) (endpoint : Endpoint.t) : list TagKey :=
  match OperationObject.tags (Endpoint.operationObject endpoint) with
  | None => []
  | Some [] => [Some untaggedTag]
  | Some tags => map (find 0 (declaredTags api)) tags
  end.

(** Every [tagMap.set] call of a complete collation, in order. *)
Definition insertions (api : Document.t) : list (TagKey * Endpoint.t) :=
  flat_map (fun endpoint => map (fun tag => (tag, endpoint)) (keysOf api endpoint))
           (operations api).

Definition applyInsertions (calls : list (TagKey * Endpoint.t)) (tagMap : TagMap)
  : TagMap :=
  fold_left (fun tagMap call => append (fst call) (snd call) tagMap) calls tagMap.

(** The keys of a sequence in the order they first occur, [seen] apart. *)
Fixpoint firstOccurrences (seen ks : list TagKey) : list TagKey :=
  match ks with
  | [] => []
  | k :: ks' =>
      if hasKey k seen then firstOccurrences seen ks'
      else k :: firstOccurrences (seen ++ [k])%list ks'
  end.

(** The forEach body runs to its end on this endpoint: the entry has a
    [tags] array, and [api.tags] is an array if the entry names a tag. *)
Definition collatableOperation (api : Document.t) (endpoint : Endpoint.t) : bool :=
  match OperationObject.tags (Endpoint.operationObject endpoint), Document.tags api with
  | None, _ => false
  | Some [], _ => true
  | Some (_ :: _), Some _ => true
  | Some (_ :: _), None => false
  end.

Definition collatable (api : Document.t) : bool :=
  forallb (collatableOperation api) (operations api).

(** Every tag name of the endpoint is the name of a declared tag. *)
Definition resolvedOperation (api : Document.t) (endpoint : Endpoint.t) : bool :=
  forallb (fun tag => match tag with Some _ => true | None => false end)
          (keysOf api endpoint).

Definition resolvable (api : Document.t) : bool :=
  collatable api && forallb (resolvedOperation api) (operations api).

Definition isUntagged (endpoint : Endpoint.t) : bool :=
  match OperationObject.tags (Endpoint.operationObject endpoint) with
  | Some [] => true
  | _ => false
  end.


(** The page of a key, when the key is a tag object. *)
Definition keyPath (tag : TagKey) : string :=
  match tag with
  | Some r => TagObject.name (TagRef.target r) ++ ".md"
  | None => EmptyString
  end.

(** A text cut at its line feeds. *)
Fixpoint lines (text : string) : list string :=
  match text with
  | EmptyString => [EmptyString]
  | String c r =>
      if Ascii.eqb c (ascii_of_nat 10) then EmptyString :: lines r
      else match lines r with
           | [] => [String c EmptyString]
           | l :: ls => String c l :: ls
           end
  end.

Fixpoint hasLineFeed (s : string) : bool :=
  match s with
  | EmptyString => false
  | String c r => Ascii.eqb c (ascii_of_nat 10) || hasLineFeed r
  end.

Definition isEmpty (s : string) : bool :=
  match s with
  | EmptyString => true
  | _ => false
  end.

(** The link lines of a summary: its non-blank lines below the heading
    and the blank line that follows it. *)
Definition summaryLinks (text : string) : list string :=
  filter (fun l => negb (isEmpty l)) (skipn 2 (lines text)).

(** The outcome of a run with the clock readings forgotten. *)
Definition outcome (r : result JSZip.t) : result (list (string * (bool * string))) :=
  match r with
  | inl e => inl e
  | inr zip => inr (JSZip.logical zip)
  end.

(** The reference named by every embedded block, and the entry under which
    [createZipBundle] stores the input. *)
Definition swaggerSrc : string := "./.gitbook/assets/openapi.yaml".
Definition specEntry : string := ".gitbook/openapi.yaml".

(** A relative reference resolved against the root of the archive. *)
Definition resolveRelative (ref : string) : string :=
  match ref with
  | String "." (String "/" r) => r
  | _ => ref
  end.

(** [needle] occurs in [text]. *)
Fixpoint occurs (needle text : string) : bool :=
  prefix needle text ||
  match text with
  | EmptyString => false
  | String _ r => occurs needle r
  end.


(** The last character of a string is there and is not white space. *)
Fixpoint endsBlack (s : string) : bool :=
  match s with
  | EmptyString => false
  | String c EmptyString => negb (isWhiteSpace c)
  | String _ r => endsBlack r
  end.

(** The end of a page: what [trim] leaves of the blocks and the white
    space around them. *)
Definition pageBlocks (endpoints : list Endpoint.t) : string :=
  trimEnd (nl ++ nl ++
           join (nl ++ nl) (map createGitBookOpenAPITag endpoints) ++ nl ++ "  ").

(** The last character of a string. *)
Fixpoint lastChar (s : string) : option ascii :=
  match s with
  | EmptyString => None
  | String c EmptyString => Some c
  | String _ r => lastChar r
  end.

(** The entry's [tags] array names at least one tag. *)
Definition declaresTag (endpoint : Endpoint.t) : bool :=
  match OperationObject.tags (Endpoint.operationObject endpoint) with
  | Some (_ :: _) => true
  | _ => false
  end.


(** An archive entry with its stamp forgotten. *)
Definition eraseStamp (entry : string * JSZip.ZipObject) : string * (bool * string) :=
  (fst entry, (JSZip.dir (snd entry), JSZip.data (snd entry))).

(** The name an entry is stored under: a folder's name ends with a slash. *)
Definition entryName (isDir : bool) (name : string) : string :=
  if isDir then JSZip.forceTrailingSlash name else name.

(** ** Sample documents *)

Definition petsTag : TagObject.t :=
  {| TagObject.name := "pets";
     TagObject.description := None;
     TagObject.externalDocs := None |}.

Definition operationWith (tags : option (list string)) : OperationObject.t :=
  {| OperationObject.tags := tags;
     OperationObject.operationId := None;
     OperationObject.summary := None |}.

(** One declared tag, [GET /pets] tagged with it and [POST /owners] with
    an empty [tags] array. *)
Definition petStore : Document.t :=
  {| Document.title := "Pet Store";
     Document.paths :=
       [("/pets", [("get", operationWith (Some ["pets"]))]);
        ("/owners", [("post", operationWith (Some []))])];
     Document.tags := Some [petsTag] |}.

(** Every operation tagged with a declared tag. *)
Definition petsOnly : Document.t :=
  {| Document.title := "Pets";
     Document.paths :=
       [("/pets", [("get", operationWith (Some ["pets"]));
                   ("post", operationWith (Some ["pets"]))])];
     Document.tags := Some [petsTag] |}.

(** An operation that names a tag the document does not declare. *)
Definition missingTag : Document.t :=
  {| Document.title := "Pet Store";
     Document.paths := [("/pets", [("get", operationWith (Some ["missing"]))])];
     Document.tags := Some [petsTag] |}.

(** An operation with no [tags] field. *)
Definition noTagsField : Document.t :=
  {| Document.title := "Pet Store";
     Document.paths := [("/pets", [("get", operationWith None)])];
     Document.tags := Some [petsTag] |}.

Definition getPets : Endpoint.t :=
  {| Endpoint.operationObject := operationWith (Some ["pets"]);
     Endpoint.path := "/pets";
     Endpoint.operation := "get" |}.

Definition postOwners : Endpoint.t :=
  {| Endpoint.operationObject := operationWith (Some []);
     Endpoint.path := "/owners";
     Endpoint.operation := "post" |}.

(** The stamps of the entries of an archive, in table order. *)
Definition stamps (zip : JSZip.t) : list Z :=
  map (fun entry => JSZip.date (snd entry)) (JSZip.files zip).

(** A clock that ticks once per reading, and one that stands still. *)
Definition tickingClock (n : nat) : Z := Z.of_nat n.
Definition stoppedClock (n : nat) : Z := 0%Z.

(** * The upload handler and its helpers *)

(** ** [validateFileIsJsonOrYaml] *)

(** A [File]: its name and the bytes [arrayBuffer()] gives. *)
Module File.
Record t : Type := mk {
  name : string;
  bytes : string
}.
End File.

(** [s.endsWith(suffix)]: the last [suffix.length] characters of [s] are
    [suffix]; a string shorter than the suffix does not end with it. *)
Definition endsWith (suffix s : string) : bool :=
  let len := String.length s in
  let searchLength := String.length suffix in
  Nat.leb searchLength len &&
  String.eqb (substring (len - searchLength) searchLength s) suffix.

(** [file] is [event.target.files[0]]: a file, or [undefined] when the
    list is empty, on which the read of [name] throws. *)
Definition validateFileIsJsonOrYaml (file : option File.t) : result bool :=
  match file with
  | None => throw (TypeError "name")
  | Some file => ret (endsWith ".json" (File.name file) || endsWith ".yaml" (File.name file))
  end.

(** ** [ab2str]

    [new TextDecoder().decode(buf)] is the UTF-8 decoder of the Encoding
    Standard with replacement of errors and removal of one leading byte
    order mark.  A JavaScript string stands here for its UTF-8 encoding, so
    the decoder reads bytes and writes bytes: a sequence it accepts (only
    shortest forms of scalar values are accepted) is written as it was
    read, an error is written as U+FFFD, that is EF BF BD. *)
Module Utf8.

Record state : Type := mkState {
  needed : nat;      (* bytes needed *)
  seen : nat;        (* bytes seen *)
  lower : nat;       (* lower boundary *)
  upper : nat;       (* upper boundary *)
  pending : string   (* the bytes of the code point under way *)
}.

Definition initial : state :=
  {| needed := 0; seen := 0; lower := 128; upper := 191; pending := EmptyString |}.

Definition replacement : string :=
  String (ascii_of_nat 239) (String (ascii_of_nat 191) (String (ascii_of_nat 189) EmptyString)).

Definition byteOrderMark : string :=
  String (ascii_of_nat 239) (String (ascii_of_nat 187) (String (ascii_of_nat 191) EmptyString)).

Definition between (lo hi b : nat) : bool := Nat.leb lo b && Nat.leb b hi.

(** The handler's step when no byte is needed: what is written and the
    state after. *)
Definition lead (c : ascii) : string * state :=
  let b := nat_of_ascii c in
  if between 0 127 b then (String c EmptyString, initial)
  else if between 194 223 b then
    (EmptyString,
     {| needed := 1; seen := 0; lower := 128; upper := 191;
        pending := String c EmptyString |})
  else if between 224 239 b then
    (EmptyString,
     {| needed := 2; seen := 0;
        lower := if Nat.eqb b 224 then 160 else 128;
        upper := if Nat.eqb b 237 then 159 else 191;
        pending := String c EmptyString |})
  else if between 240 244 b then
    (EmptyString,
     {| needed := 3; seen := 0;
        lower := if Nat.eqb b 240 then 144 else 128;
        upper := if Nat.eqb b 244 then 143 else 191;
        pending := String c EmptyString |})
  else (replacement, initial).

(** The decoder run over the bytes.  A byte outside the boundaries ends
    the code point under way with an error and is read again from the
    initial state; the end of the input inside a code point is an error. *)
Fixpoint decode (st : state) (input : string) : string :=
  match input with
  | EmptyString => if Nat.eqb (needed st) 0 then EmptyString else replacement
  | String c rest =>
      if Nat.eqb (needed st) 0 then
        let '(out, st') := lead c in out ++ decode st' rest
      else if between (lower st) (upper st) (nat_of_ascii c) then
        if Nat.eqb (S (seen st)) (needed st)
        then pending st ++ String c EmptyString ++ decode initial rest
        else decode {| needed := needed st; seen := S (seen st);
                       lower := 128; upper := 191;
                       pending := pending st ++ String c EmptyString |} rest
      else
        let '(out, st') := lead c in replacement ++ out ++ decode st' rest
  end.

(** The byte order mark is dropped when it is the first thing decoded. *)
Definition stripByteOrderMark (input : string) : string :=
  if prefix byteOrderMark input then substring 3 (String.length input - 3) input
  else input.
End Utf8.

Definition ab2str (buf : string) : string :=
  Utf8.decode Utf8.initial (Utf8.stripByteOrderMark buf).

(** ** [Home]: the state of the page and the whole of [handleFileUpload]

    The two [useState] cells, and the handler as a step on them.  A run
    that throws rejects the handler's promise and leaves the cells as they
    were.  [zipUrl] holds the bundle the object URL stands for.  The
    decoded-text part of the handler is [handleFileUpload] above. *)
Module Home.

Record State : Type := mkState {
  error : option string;
  zipUrl : option JSZip.t
}.

Definition initial : State := {| error := None; zipUrl := None |}.

Section Handler.
Variable parse : string -> result Document.t.
Variable now : nat -> Z.

Definition handleFileUpload (file : option File.t) (st : State) : result State :=
  valid <- validateFileIsJsonOrYaml file ;;
  if negb valid then
    ret {| error := Some "File must be either JSON or YAML"; zipUrl := zipUrl st |}
  else
    match file with
    | None => throw (TypeError "arrayBuffer")
    | Some file =>
        let filecontentsencoded := File.bytes file in
        let filecontentsdecoded := ab2str filecontentsencoded in
        bundle <- handleFileUpload parse now filecontentsdecoded ;;
        ret {| error := error st; zipUrl := Some bundle |}
    end.

(** One upload after the other; a rejected promise changes nothing. *)
Definition upload (st : State) (file : option File.t) : State :=
  match handleFileUpload file st with
  | inr st' => st'
  | inl _ => st
  end.
End Handler.
End Home.

(** ** More vocabulary *)

(** The contents of the last file of a list that has the given path. *)
Definition lastWithPath (path : string) (gitBookFiles : list GitBookFile.t)
  : option string :=
  fold_left
    (fun found f => if String.eqb (GitBookFile.path f) path
                    then Some (GitBookFile.contents f) else found)
    gitBookFiles None.

(** The first line of the block of an endpoint. *)
Definition swaggerLine (endpoint : Endpoint.t) : string :=
  "{% swagger src=" ++ dq ++ "./.gitbook/assets/openapi.yaml" ++ dq ++
  " path=" ++ dq ++ Endpoint.path endpoint ++ dq ++
  " method=" ++ dq ++ Endpoint.operation endpoint ++ dq ++ " %}".

(** How often a key is among the keys of an endpoint. *)
Definition timesFiled (api : Document.t) (tag : TagKey) (endpoint : Endpoint.t) : nat :=
  List.length (filter (fun k => key_eqb k tag) (keysOf api endpoint)).

(** Well-formed UTF-8, by the table of byte sequences of the Unicode
    Standard (Table 3-7): shortest forms only, no surrogates, nothing
    above U+10FFFF. *)
Fixpoint wellFormed (s : string) : bool :=
  match s with
  | EmptyString => true
  | String a r1 =>
      let x := nat_of_ascii a in
      if Utf8.between 0 127 x then wellFormed r1
      else
        match r1 with
        | EmptyString => false
        | String b r2 =>
            let y := nat_of_ascii b in
            if Utf8.between 194 223 x then Utf8.between 128 191 y && wellFormed r2
            else
              match r2 with
              | EmptyString => false
              | String c r3 =>
                  let z := nat_of_ascii c in
                  if Utf8.between 224 239 x then
                    Utf8.between (if Nat.eqb x 224 then 160 else 128)
                                 (if Nat.eqb x 237 then 159 else 191) y &&
                    Utf8.between 128 191 z && wellFormed r3
                  else
                    match r3 with
                    | EmptyString => false
                    | String d r4 =>
                        Utf8.between 240 244 x &&
                        Utf8.between (if Nat.eqb x 240 then 144 else 128)
                                     (if Nat.eqb x 244 then 143 else 191) y &&
                        Utf8.between 128 191 z &&
                        Utf8.between 128 191 (nat_of_ascii d) && wellFormed r4
                    end
              end
        end
  end.

(** The two bytes of U+00E9 after ASCII: a well-formed text that is not
    ASCII. *)
Definition accented : string :=
  "title: caf" ++ String (ascii_of_nat 195) (String (ascii_of_nat 169) EmptyString).

(** A valid upload of the Pet Store document. *)
Definition petStoreFile : File.t :=
  {| File.name := "petstore.yaml"; File.bytes := "openapi: 3.0.0" |}.

(** The entry carries a [tags] array. *)
Definition hasTagsArray (endpoint : Endpoint.t) : bool :=
  match OperationObject.tags (Endpoint.operationObject endpoint) with
  | Some _ => true
  | None => false
  end.

(** No top-level [tags], two operations without tags. *)
Definition untaggedOnly : Document.t :=
  {| Document.title := "Owners";
     Document.paths :=
       [("/owners", [("get", operationWith (Some []));
                     ("post", operationWith (Some []))])];
     Document.tags := None |}.

(** No top-level [tags], an operation that names a tag. *)
Definition tagsArrayAbsent : Document.t :=
  {| Document.title := "Pets";
     Document.paths :=
       [("/owners", [("get", operationWith (Some []))]);
        ("/pets", [("get", operationWith (Some ["pets"]))])];
     Document.tags := None |}.

(** What follows the first line in every block. *)
Definition blockRest : string :=
  nl ++ "[openapi.yaml](<./.gitbook/assets/openapi.yaml>)" ++ nl ++
  "{% endswagger %}" ++ nl ++ "  ".

(** The message [handleFileUpload] sets for a refused file. *)
Definition refusal : string := "File must be either JSON or YAML".

(** A file whose name has the other usual extension of YAML. *)
Definition petStoreYml : File.t :=
  {| File.name := "petstore.yml"; File.bytes := "openapi: 3.0.0" |}.

(** A byte that starts no UTF-8 sequence: a continuation byte, [C0], [C1],
    or [F5] and above. *)
Definition neverLead (c : ascii) : bool :=
  Utf8.between 128 193 (nat_of_ascii c) || Nat.leb 245 (nat_of_ascii c).

(** ** Vocabulary of the grouping statements *)

(** The endpoints [api.paths] holds: a path, a method listed under it and
    the entry stored there. *)
Definition flattened (api : Document.t) (e : Endpoint.t) : Prop :=
  exists item,
    In (Endpoint.path e, item) (Document.paths api) /\
    In (Endpoint.operation e, Endpoint.operationObject e) item.


(** The first element named [tagName] in a list of tags is at index [i]. *)
Definition firstNamed (tags : list TagObject.t) (tagName : string) (i : nat)
    (tag : TagObject.t) : Prop :=
  nth_error tags i = Some tag /\
  TagObject.name tag = tagName /\
  forall j other, j < i -> nth_error tags j = Some other ->
                  TagObject.name other <> tagName.

(** Three declared tags, two of them with the same name, and an operation
    that names two tags. *)
Definition ownersTag : TagObject.t :=
  {| TagObject.name := "owners";
     TagObject.description := Some "People";
     TagObject.externalDocs := None |}.

Definition petsAgain : TagObject.t :=
  {| TagObject.name := "pets";
     TagObject.description := Some "Declared twice";
     TagObject.externalDocs := None |}.

Definition twoTags : Document.t :=
  {| Document.title := "Pets and owners";
     Document.paths :=
       [("/pets", [("get", operationWith (Some ["pets"; "owners"]))]);
        ("/owners", [("get", operationWith (Some ["owners"]))])];
     Document.tags := Some [petsTag; ownersTag; petsAgain] |}.

Definition getPetsOfOwners : Endpoint.t :=
  {| Endpoint.operationObject := operationWith (Some ["pets"; "owners"]);
     Endpoint.path := "/pets";
     Endpoint.operation := "get" |}.

(** * Facts *)

(** ** [Map] *)

Section JsMapFacts.
Context {K V : Type}.
Variable eqb : K -> K -> bool.
Hypothesis eqb_refl : forall k, eqb k k = true.
Hypothesis eqb_sym : forall a b, eqb a b = eqb b a.
Hypothesis eqb_trans : forall a b c, eqb a b = true -> eqb b c = true -> eqb a c = true.

Lemma eqb_congr (a b c : K) : eqb a b = true -> eqb a c = eqb b c.
Proof.
  intros Hab.
  destruct (eqb b c) eqn:Hbc.
  - eauto.
  - destruct (eqb a c) eqn:Hac; [|reflexivity].
    rewrite eqb_sym in Hab.
    rewrite <- Hbc. symmetry. eauto.
Qed.

Lemma map_get_congr (a b : K) (m : list (K * V)) :
  eqb a b = true -> map_get eqb a m = map_get eqb b m.
Proof.
  intros Hab.
  induction m as [|[k v] m IH]; simpl; [reflexivity|].
  rewrite (eqb_congr a b k Hab), IH. reflexivity.
Qed.

Lemma map_get_set_same (k : K) (v : V) (m : list (K * V)) :
  map_get eqb k (map_set eqb k v m) = Some v.
Proof.
  induction m as [|[k' v'] m IH]; simpl.
  - now rewrite eqb_refl.
  - destruct (eqb k k') eqn:E; simpl; rewrite E; [reflexivity|exact IH].
Qed.

Lemma map_get_set_other (k k' : K) (v : V) (m : list (K * V)) :
  eqb k k' = false ->
  map_get eqb k' (map_set eqb k v m) = map_get eqb k' m.
Proof.
  intros Hne.
  induction m as [|[k0 v0] m IH]; simpl.
  - rewrite eqb_sym, Hne. reflexivity.
  - destruct (eqb k k0) eqn:E; simpl.
    + rewrite (eqb_sym k' k0), <- (eqb_congr k k0 k' E), Hne. reflexivity.
    + now rewrite IH.
Qed.

Lemma map_set_keys (k : K) (v : V) (m : list (K * V)) :
  map fst (map_set eqb k v m) =
  if existsb (eqb k) (map fst m) then map fst m else (map fst m ++ [k])%list.
Proof.
  induction m as [|[k' v'] m IH]; simpl; [reflexivity|].
  destruct (eqb k k') eqn:E; simpl; [reflexivity|].
  rewrite IH. now destruct (existsb (eqb k) (map fst m)).
Qed.

Lemma map_get_none (k : K) (m : list (K * V)) :
  map_get eqb k m = None <-> existsb (eqb k) (map fst m) = false.
Proof.
  induction m as [|[k' v'] m IH]; simpl; [tauto|].
  destruct (eqb k k'); simpl; [split; discriminate|exact IH].
Qed.

Lemma map_get_In (k : K) (v : V) (m : list (K * V)) :
  map_get eqb k m = Some v -> exists k', eqb k k' = true /\ In (k', v) m.
Proof.
  induction m as [|[k0 v0] m IH]; simpl; [discriminate|].
  destruct (eqb k k0) eqn:E.
  - intros [= <-]. exists k0. auto.
  - intros H. destruct (IH H) as (k' & Hk & Hin). exists k'. auto.
Qed.

Lemma map_set_In (k k' : K) (v v' : V) (m : list (K * V)) :
  In (k', v') (map_set eqb k v m) ->
  (eqb k k' = true /\ v' = v) \/ In (k', v') m.
Proof.
  induction m as [|[k0 v0] m IH]; simpl.
  - intros [[= <- <-]|[]]. left. auto.
  - destruct (eqb k k0) eqn:E; simpl.
    + intros [[= <- <-]|H]; auto.
    + intros [H|H]; auto. destruct (IH H); auto.
Qed.
End JsMapFacts.

(** ** Keys *)

Lemma key_eqb_refl (k : TagKey) : key_eqb k k = true.
Proof. destruct k; simpl; [apply Nat.eqb_refl|reflexivity]. Qed.

Lemma key_eqb_sym (a b : TagKey) : key_eqb a b = key_eqb b a.
Proof. destruct a, b; simpl; try reflexivity. apply Nat.eqb_sym. Qed.

Lemma key_eqb_trans (a b c : TagKey) :
  key_eqb a b = true -> key_eqb b c = true -> key_eqb a c = true.
Proof.
  destruct a, b, c; simpl; try discriminate; auto.
  rewrite !Nat.eqb_eq. congruence.
Qed.

Lemma find_addr (i : nat) (tags : list TagObject.t) (tagName : string) (r : TagRef.t) :
  find i tags tagName = Some r ->
  i < TagRef.addr r /\ nth_error tags (TagRef.addr r - S i) = Some (TagRef.target r) /\
  TagObject.name (TagRef.target r) = tagName.
Proof.
  revert i. induction tags as [|t tags IH]; intros i; simpl; [discriminate|].
  destruct (String.eqb (TagObject.name t) tagName) eqn:E.
  - intros [= <-]. simpl. rewrite Nat.sub_diag. apply String.eqb_eq in E. auto.
  - intros H. destruct (IH _ H) as (Hlt & Hnth & Hname).
    split; [lia|]. split; [|exact Hname].
    replace (TagRef.addr r - S i) with (S (TagRef.addr r - S (S i))) by lia.
    exact Hnth.
Qed.


(** ** Grouping *)

Lemma group_append_same (k k' : TagKey) (e : Endpoint.t) (m : TagMap) :
  key_eqb k k' = true -> group k' (append k e m) = (group k' m ++ [e])%list.
Proof.
  intros H. unfold group, append.
  rewrite <- (map_get_congr key_eqb key_eqb_sym key_eqb_trans k k' _ H).
  rewrite (map_get_set_same key_eqb key_eqb_refl).
  now rewrite <- (map_get_congr key_eqb key_eqb_sym key_eqb_trans k k' m H).
Qed.

Lemma group_append_other (k k' : TagKey) (e : Endpoint.t) (m : TagMap) :
  key_eqb k k' = false -> group k' (append k e m) = group k' m.
Proof.
  intros H. unfold group, append.
  now rewrite (map_get_set_other key_eqb key_eqb_sym key_eqb_trans k k' _ m H).
Qed.

Lemma group_applyInsertions (k : TagKey) (calls : list (TagKey * Endpoint.t)) (m : TagMap) :
  group k (applyInsertions calls m) =
  (group k m ++ map snd (filter (fun call => key_eqb (fst call) k) calls))%list.
Proof.
  revert m. induction calls as [|[k0 e] calls IH]; intros m; simpl.
  - now rewrite app_nil_r.
  - unfold applyInsertions in *. simpl. rewrite IH.
    destruct (key_eqb k0 k) eqn:E; simpl.
    + rewrite (group_append_same _ _ _ _ E), <- app_assoc. reflexivity.
    + now rewrite (group_append_other _ _ _ _ E).
Qed.

Lemma keys_append (k : TagKey) (e : Endpoint.t) (m : TagMap) :
  keys (append k e m) = if hasKey k (keys m) then keys m else (keys m ++ [k])%list.
Proof. unfold keys, append, hasKey. apply map_set_keys. Qed.

Lemma keys_applyInsertions (calls : list (TagKey * Endpoint.t)) (m : TagMap) :
  keys (applyInsertions calls m) =
  (keys m ++ firstOccurrences (keys m) (map fst calls))%list.
Proof.
  revert m. induction calls as [|[k e] calls IH]; intros m; simpl.
  - now rewrite app_nil_r.
  - unfold applyInsertions in *. simpl. rewrite IH, keys_append.
    destruct (hasKey k (keys m)); [reflexivity|].
    now rewrite <- app_assoc.
Qed.

(** ** [collateTags] as a sequence of [tagMap.set] calls *)

Lemma forEach_ret {A S : Type} (g : S -> A -> S) (xs : list A) (s : S) :
  forEach (fun s x => ret (g s x)) xs s = inr (fold_left g xs s).
Proof.
  revert s. induction xs as [|x xs IH]; intros s; simpl; [reflexivity|apply IH].
Qed.

Lemma applyInsertions_app (c1 c2 : list (TagKey * Endpoint.t)) (m : TagMap) :
  applyInsertions (c1 ++ c2)%list m = applyInsertions c2 (applyInsertions c1 m).
Proof. apply fold_left_app. Qed.

Lemma fold_left_over_map {A B S : Type} (g : S -> B -> S) (h : A -> B) (xs : list A) (s : S) :
  fold_left g (map h xs) s = fold_left (fun s x => g s (h x)) xs s.
Proof.
  revert s. induction xs as [|x xs IH]; intros s; simpl; [reflexivity|apply IH].
Qed.

Lemma applyInsertions_one_endpoint (e : Endpoint.t) (ks : list TagKey) (m : TagMap) :
  applyInsertions (map (fun k => (k, e)) ks) m = fold_left (fun m k => append k e m) ks m.
Proof.
  revert m. induction ks as [|k ks IH]; intros m; simpl; [reflexivity|apply IH].
Qed.

Lemma collateOperation_returns (api : Document.t) (m : TagMap) (e : Endpoint.t) :
  collatableOperation api e = true ->
  collateOperation api m e =
  inr (applyInsertions (map (fun k => (k, e)) (keysOf api e)) m).
Proof.
  unfold collatableOperation, collateOperation, keysOf, declaredTags.
  destruct (OperationObject.tags (Endpoint.operationObject e)) as [[|t ts]|];
    [reflexivity| |discriminate].
  destruct (Document.tags api) as [l|]; [|discriminate].
  intros _. cbv zeta.
  change (Nat.eqb (List.length (t :: ts)) 0) with false. cbv iota.
  rewrite (forEach_ret (fun tagMap tagName => append (find 0 l tagName) e tagMap)).
  rewrite applyInsertions_one_endpoint, fold_left_over_map. reflexivity.
Qed.

Lemma collateOperation_throws (api : Document.t) (m : TagMap) (e : Endpoint.t) :
  collatableOperation api e = false ->
  collateOperation api m e = inl (TypeError "length") \/
  collateOperation api m e = inl (TypeError "find").
Proof.
  unfold collatableOperation, collateOperation.
  destruct (OperationObject.tags (Endpoint.operationObject e)) as [[|t ts]|];
    [discriminate| |auto].
  destruct (Document.tags api) as [l|]; [discriminate|].
  intros _. right. reflexivity.
Qed.

Lemma collate_forEach_returns (api : Document.t) (ops : list Endpoint.t) (m : TagMap) :
  forallb (collatableOperation api) ops = true ->
  forEach (collateOperation api) ops m =
  inr (applyInsertions
         (flat_map (fun e => map (fun k => (k, e)) (keysOf api e)) ops) m).
Proof.
  revert m. induction ops as [|e ops IH]; intros m; simpl; [reflexivity|].
  rewrite andb_true_iff. intros [He Hops].
  rewrite (collateOperation_returns _ _ _ He). simpl.
  rewrite IH by assumption. now rewrite applyInsertions_app.
Qed.

Lemma collate_forEach_throws (api : Document.t) (ops : list Endpoint.t) (m : TagMap) :
  forallb (collatableOperation api) ops = false ->
  forEach (collateOperation api) ops m = inl (TypeError "length") \/
  forEach (collateOperation api) ops m = inl (TypeError "find").
Proof.
  revert m. induction ops as [|e ops IH]; intros m; simpl; [discriminate|].
  destruct (collatableOperation api e) eqn:He; simpl.
  - intros Hops. rewrite (collateOperation_returns _ _ _ He). simpl. now apply IH.
  - intros _. destruct (collateOperation_throws api m e He) as [-> | ->]; auto.
Qed.

Lemma collateTags_returns (api : Document.t) :
  collatable api = true ->
  collateTags api = inr (applyInsertions (insertions api) []).
Proof. apply collate_forEach_returns. Qed.

Lemma collateTags_throws (api : Document.t) :
  collatable api = false ->
  collateTags api = inl (TypeError "length") \/ collateTags api = inl (TypeError "find").
Proof. apply collate_forEach_throws. Qed.

Lemma collateTags_inversion (api : Document.t) (m : TagMap) :
  collateTags api = inr m ->
  collatable api = true /\ m = applyInsertions (insertions api) [].
Proof.
  intros H. destruct (collatable api) eqn:E.
  - rewrite (collateTags_returns _ E) in H. now inversion H.
  - destruct (collateTags_throws _ E) as [H' | H']; rewrite H' in H; discriminate.
Qed.




(** ** The entries of the grouping *)

Lemma hasKey_false (k k' : TagKey) (ks : list TagKey) :
  hasKey k ks = false -> In k' ks -> key_eqb k k' = false.
Proof.
  unfold hasKey. induction ks as [|k0 ks IH]; simpl; [tauto|].
  rewrite orb_false_iff. intros [H0 Hks] [<-|Hin]; auto.
Qed.

Lemma hasKey_app (k : TagKey) (ks ks' : list TagKey) :
  hasKey k (ks ++ ks')%list = hasKey k ks || hasKey k ks'.
Proof. apply existsb_app. Qed.

Lemma uniqueKeys_snoc (k : TagKey) (ks : list TagKey) :
  uniqueKeys ks = true -> hasKey k ks = false -> uniqueKeys (ks ++ [k])%list = true.
Proof.
  induction ks as [|k0 ks IH]; simpl; [reflexivity|].
  rewrite andb_true_iff, negb_true_iff, orb_false_iff.
  intros [H0 Hks] [Hk Hrest].
  rewrite hasKey_app, H0, IH by assumption. simpl.
  now rewrite key_eqb_sym, Hk.
Qed.

Lemma uniqueKeys_applyInsertions (calls : list (TagKey * Endpoint.t)) (m : TagMap) :
  uniqueKeys (keys m) = true -> uniqueKeys (keys (applyInsertions calls m)) = true.
Proof.
  revert m. induction calls as [|[k e] calls IH]; intros m Hm; [exact Hm|].
  apply IH. rewrite keys_append. simpl.
  destruct (hasKey k (keys m)) eqn:E; [exact Hm|now apply uniqueKeys_snoc].
Qed.







(** * Grouping *)

Lemma operations_flattened (api : Document.t) (e : Endpoint.t) :
  In e (operations api) <-> flattened api e.
Proof.
  unfold operations, flattened. rewrite in_flat_map. split.
  - intros ([path item] & Hitem & He).
    apply in_map_iff in He as ([operation o] & <- & Ho). exists item. auto.
  - intros (item & Hitem & Ho). exists (Endpoint.path e, item). split; [exact Hitem|].
    apply in_map_iff. exists (Endpoint.operation e, Endpoint.operationObject e).
    split; [now destruct e|exact Ho].
Qed.





(** An endpoint is in the group of a key exactly when one of its own keys
    is that key: an operation tagged [a] and [b] is in the groups of [a]
    and of [b] and in no other. *)
Lemma group_membership (api : Document.t) (tagMap : TagMap) (tag : TagKey)
    (e : Endpoint.t) :
  collateTags api = inr tagMap ->
  (In e (group tag tagMap) <->
   In e (operations api) /\ hasKey tag (keysOf api e) = true).
Proof.
  intros H. apply collateTags_inversion in H as [_ ->].
  rewrite group_applyInsertions. simpl. unfold insertions, hasKey.
  rewrite in_map_iff, existsb_exists. split.
  - intros ([k e'] & Heq & Hin). simpl in Heq. subst e'.
    apply filter_In in Hin as [Hin Hk]. simpl in Hk.
    apply in_flat_map in Hin as (e0 & He0 & Hin).
    apply in_map_iff in Hin as (k0 & [= -> ->] & Hk0).
    split; [exact He0|]. exists k. split; [exact Hk0|]. now rewrite key_eqb_sym.
  - intros [He (k & Hk & Heq)]. exists (k, e). split; [reflexivity|].
    apply filter_In. split; [|simpl; now rewrite key_eqb_sym].
    apply in_flat_map. exists e. split; [exact He|]. apply in_map_iff. eauto.
Qed.

(** ** The Pet Store document, run *)

Example petStore_grouping :
  collateTags petStore =
  inr [(Some {| TagRef.addr := 1; TagRef.target := petsTag |}, [getPets]);
       (Some untaggedTag, [postOwners])].
Proof. reflexivity. Qed.

Example petStore_archive :
  exists zip,
    handleFileUpload (fun _ => ret petStore) tickingClock "openapi: 3.0.0" = inr zip /\
    map fst (JSZip.logical zip) =
      ["SUMMARY.md"; "README.md"; "pets.md"; "__internal-untagged.md";
       ".gitbook/"; ".gitbook/openapi.yaml"] /\
    JSZip.read "SUMMARY.md" zip =
      Some ("# Table of contents" ++ nl ++ nl ++
            "[pets.md](pets.md)" ++ nl ++
            "[__internal-untagged.md](__internal-untagged.md)") /\
    JSZip.read "README.md" zip = Some "# Pet Store" /\
    JSZip.read ".gitbook/openapi.yaml" zip = Some "openapi: 3.0.0".
Proof. eexists. repeat split. Qed.

(** The stamps of two runs differ with the clocks, the rest does not. *)
Example petStore_stamps :
  option_map stamps
    (match handleFileUpload (fun _ => ret petStore) tickingClock "openapi: 3.0.0" with
     | inr zip => Some zip
     | inl _ => None
     end) = Some [0; 1; 2; 3; 4; 5]%Z /\
  option_map stamps
    (match handleFileUpload (fun _ => ret petStore) stoppedClock "openapi: 3.0.0" with
     | inr zip => Some zip
     | inl _ => None
     end) = Some [0; 0; 0; 0; 0; 0]%Z.
Proof. split; reflexivity. Qed.

(** * Operations without a [tags] array, and undeclared tag names *)

Lemma collate_forEach_length (api : Document.t) (l : list TagObject.t)
    (ops : list Endpoint.t) (m : TagMap) :
  Document.tags api = Some l ->
  forallb (collatableOperation api) ops = false ->
  forEach (collateOperation api) ops m = inl (TypeError "length").
Proof.
  intros Htags. revert m. induction ops as [|e ops IH]; intros m; simpl; [discriminate|].
  destruct (collatableOperation api e) eqn:He; simpl.
  - intros Hops. rewrite (collateOperation_returns _ _ _ He). simpl. now apply IH.
  - intros _. revert He. unfold collatableOperation, collateOperation. rewrite Htags.
    now destruct (OperationObject.tags (Endpoint.operationObject e)) as [[|t ts]|].
Qed.

Lemma not_collatable (api : Document.t) (e : Endpoint.t) :
  In e (operations api) ->
  OperationObject.tags (Endpoint.operationObject e) = None ->
  collatable api = false.
Proof.
  intros Hin Htags. unfold collatable.
  destruct (forallb (collatableOperation api) (operations api)) eqn:E; [|reflexivity].
  rewrite forallb_forall in E. specialize (E e Hin).
  unfold collatableOperation in E. rewrite Htags in E. discriminate.
Qed.

(** C10. A document with a path-item entry that has no [tags] field makes
    [collateTags] throw a [TypeError] (the one of reading [length] when
    [api.tags] is an array), and a run on it ends with that exception
    instead of an archive; the entry is not filed as untagged. *)
Theorem missing_tags_field_aborts (api : Document.t) (e : Endpoint.t) :
  In e (operations api) ->
  OperationObject.tags (Endpoint.operationObject e) = None ->
  (exists reading, collateTags api = inl (TypeError reading)) /\
  (forall l, Document.tags api = Some l -> collateTags api = inl (TypeError "length")) /\
  (forall parse now raw,
      parse raw = inr api ->
      exists reading, handleFileUpload parse now raw = inl (TypeError reading)).
Proof.
  intros Hin Htags.
  pose proof (not_collatable api e Hin Htags) as Hno.
  assert (Hthrow : exists reading, collateTags api = inl (TypeError reading)).
  { destruct (collateTags_throws api Hno) as [H|H]; eauto. }
  split; [exact Hthrow|]. split.
  - intros l Hl. now apply (collate_forEach_length api l).
  - intros parse now raw Hparse. destruct Hthrow as (reading & Hthrow).
    exists reading. unfold handleFileUpload. rewrite Hparse. simpl.
    now rewrite Hthrow.
Qed.

Lemma missing_tags_field_aborts_noTagsField :
  (exists reading, collateTags noTagsField = inl (TypeError reading)) /\
  (forall l, Document.tags noTagsField = Some l ->
             collateTags noTagsField = inl (TypeError "length")) /\
  (forall parse now raw,
      parse raw = inr noTagsField ->
      exists reading, handleFileUpload parse now raw = inl (TypeError reading)).
Proof.
  apply (missing_tags_field_aborts noTagsField
           {| Endpoint.operationObject := operationWith None;
              Endpoint.path := "/pets";
              Endpoint.operation := "get" |}).
  - simpl. left. reflexivity.
  - reflexivity.
Defined.

(** [createTagPage] throws on [undefined] and only there. *)
Lemma createTagPage_undefined (endpoints : list Endpoint.t) :
  createTagPage None endpoints = inl (TypeError "name").
Proof. reflexivity. Qed.

Lemma createTagPage_object (tag : TagObject.t) (endpoints : list Endpoint.t) :
  exists page,
    createTagPage (Some tag) endpoints = inr page /\
    GitBookFile.path page = TagObject.name tag ++ ".md".
Proof. eexists. split; reflexivity. Qed.

Lemma makePages_undefined (m : TagMap) (endpoints : list Endpoint.t) :
  In (None, endpoints) m -> makePagesForTagGroups m = inl (TypeError "name").
Proof.
  unfold makePagesForTagGroups.
  induction m as [|[[r|] es] m IH]; cbn [mapM In option_map];
    [tauto| |reflexivity].
  intros [H|H]; [discriminate|].
  destruct (createTagPage_object (TagRef.target r) es) as (page & -> & _).
  cbn [bind]. now rewrite IH.
Qed.

(** C2. Where an operation names a tag that [api.tags] does not hold,
    [collateTags] neither rejects the document nor makes a placeholder: it
    returns a grouping with the key [undefined], the endpoint filed under
    it, and the run then ends in the [TypeError] of reading [name] on that
    key while the pages are made. *)
Theorem unknown_tag_filed_under_undefined (api : Document.t) (e : Endpoint.t)
    (names : list string) (tagName : string) :
  collatable api = true ->
  In e (operations api) ->
  OperationObject.tags (Endpoint.operationObject e) = Some names ->
  In tagName names ->
  find 0 (declaredTags api) tagName = None ->
  exists tagMap,
    collateTags api = inr tagMap /\
    In e (group None tagMap) /\
    makePagesForTagGroups tagMap = inl (TypeError "name") /\
    (forall parse now raw,
        parse raw = inr api ->
        handleFileUpload parse now raw = inl (TypeError "name")).
Proof.
  intros Hok Hin Htags Hname Hfind.
  pose proof (collateTags_returns api Hok) as Hrun.
  set (tagMap := applyInsertions (insertions api) []) in *.
  assert (Hgroup : In e (group None tagMap)).
  { subst tagMap. rewrite group_applyInsertions. simpl.
    apply in_map_iff. exists (None, e). split; [reflexivity|].
    apply filter_In. split; [|reflexivity].
    unfold insertions. apply in_flat_map. exists e. split; [exact Hin|].
    apply in_map_iff. exists None. split; [reflexivity|].
    unfold keysOf. rewrite Htags. destruct names as [|n names]; [destruct Hname|].
    rewrite <- Hfind. now apply in_map. }
  assert (Hpages : makePagesForTagGroups tagMap = inl (TypeError "name")).
  { unfold group in Hgroup.
    destruct (map_get key_eqb None tagMap) as [es|] eqn:E; [|destruct Hgroup].
    destruct (map_get_In key_eqb None es tagMap E) as ([r|] & Hk & Hentry);
      [discriminate|].
    now apply (makePages_undefined tagMap es). }
  exists tagMap. repeat split; try assumption.
  intros parse now raw Hparse. unfold handleFileUpload.
  rewrite Hparse. simpl. rewrite Hrun. simpl. now rewrite Hpages.
Qed.

Lemma unknown_tag_filed_under_undefined_missingTag :
  exists tagMap,
    collateTags missingTag = inr tagMap /\
    In {| Endpoint.operationObject := operationWith (Some ["missing"]);
          Endpoint.path := "/pets";
          Endpoint.operation := "get" |} (group None tagMap) /\
    makePagesForTagGroups tagMap = inl (TypeError "name") /\
    (forall parse now raw,
        parse raw = inr missingTag ->
        handleFileUpload parse now raw = inl (TypeError "name")).
Proof.
  apply (unknown_tag_filed_under_undefined missingTag _ ["missing"] "missing").
  - reflexivity.
  - simpl. left. reflexivity.
  - reflexivity.
  - simpl. left. reflexivity.
  - reflexivity.
Defined.

(** * Pages *)

(** ** Strings *)

Lemma append_assoc (a b c : string) : (a ++ b) ++ c = a ++ b ++ c.
Proof. induction a as [|x a IH]; simpl; [reflexivity|now rewrite IH]. Qed.

Lemma append_length (a b : string) :
  String.length (a ++ b) = String.length a + String.length b.
Proof. induction a as [|x a IH]; simpl; [reflexivity|now rewrite IH]. Qed.

Lemma append_same_length (a b c d : string) :
  a ++ b = c ++ d -> String.length a = String.length c -> a = c /\ b = d.
Proof.
  revert c. induction a as [|x a IH]; intros [|y c]; simpl; try discriminate.
  - auto.
  - intros [= -> H] [= Hlen]. destruct (IH c H Hlen) as [-> ->]. auto.
Qed.

Lemma trimEnd_black (c : ascii) (r : string) :
  isWhiteSpace c = false -> trimEnd (String c r) = String c (trimEnd r).
Proof. intros H. simpl. rewrite H. now destruct (trimEnd r). Qed.

Lemma trimEnd_app (a b : string) :
  trimEnd b <> EmptyString -> trimEnd (a ++ b) = a ++ trimEnd b.
Proof.
  intros Hb. induction a as [|x a IH]; simpl; [reflexivity|].
  rewrite IH. destruct (a ++ trimEnd b) eqn:E; [|reflexivity].
  destruct a; simpl in E; [contradiction|discriminate].
Qed.

Lemma trimEnd_after_black (s r : string) :
  endsBlack s = true -> trimEnd (s ++ r) = s ++ trimEnd r.
Proof.
  induction s as [|c s IH]; [discriminate|].
  destruct s as [|c' s].
  - simpl. rewrite negb_true_iff. intros H. now apply trimEnd_black.
  - intros H. change (endsBlack (String c' s) = true) in H.
    change (String c (String c' s) ++ r) with (String c (String c' s ++ r)).
    change (trimEnd (String c (String c' s ++ r))) with
      (match trimEnd (String c' s ++ r) with
       | EmptyString => if isWhiteSpace c then EmptyString else String c EmptyString
       | r' => String c r'
       end).
    rewrite (IH H). reflexivity.
Qed.

Lemma endsBlack_app (a b : string) : endsBlack b = true -> endsBlack (a ++ b) = true.
Proof.
  intros Hb. induction a as [|c a IH]; [exact Hb|].
  simpl. destruct (a ++ b) eqn:E; [discriminate|exact IH].
Qed.

Lemma externalDocsLine_endsBlack (externalDocs : option ExternalDocs.t) :
  endsBlack (externalDocsLine externalDocs) = true.
Proof.
  destruct externalDocs as [d|]; [|reflexivity].
  unfold externalDocsLine, interpolate.
  repeat (apply endsBlack_app). reflexivity.
Qed.

(** ** [createTagPage] *)

(** The shape of every page: an H1 of the name, a blank line, the
    interpolated description, a blank line, the interpolated external-docs
    expression, and the blocks. *)
Lemma createTagPage_contents (tag : TagObject.t) (endpoints : list Endpoint.t) :
  createTagPage (Some tag) endpoints =
  inr {| GitBookFile.path := TagObject.name tag ++ ".md";
         GitBookFile.contents :=
           "# " ++ TagObject.name tag ++ nl ++ nl ++
           interpolate (TagObject.description tag) ++ nl ++ nl ++
           externalDocsLine (TagObject.externalDocs tag) ++
           pageBlocks endpoints |}.
Proof.
  unfold createTagPage, pageBlocks, trim, ret. cbv zeta.
  apply f_equal. apply f_equal.
  change (trimStart (nl ++ "# " ++ ?x)) with ("# " ++ x).
  set (J := join (nl ++ nl) (map createGitBookOpenAPITag endpoints)).
  set (P := "# " ++ TagObject.name tag ++ nl ++ nl ++
            interpolate (TagObject.description tag) ++ nl ++ nl ++
            externalDocsLine (TagObject.externalDocs tag)).
  transitivity (trimEnd (P ++ nl ++ nl ++ J ++ nl ++ "  ")).
  - f_equal. unfold P. now rewrite !append_assoc.
  - rewrite trimEnd_after_black.
    + unfold P. now rewrite !append_assoc.
    + unfold P. repeat (apply endsBlack_app). apply externalDocsLine_endsBlack.
Qed.

Lemma pageBlocks_none : pageBlocks [] = EmptyString.
Proof. reflexivity. Qed.

(** C3. A page is the H1 of the tag's name, the description, the
    external-docs line and one block per endpoint; but for a tag with
    neither [description] nor [externalDocs] the two places are not left
    blank: each holds the word undefined. *)
Theorem absent_fields_render_undefined (tag : TagObject.t) (endpoints : list Endpoint.t) :
  TagObject.description tag = None ->
  TagObject.externalDocs tag = None ->
  createTagPage (Some tag) endpoints =
  inr {| GitBookFile.path := TagObject.name tag ++ ".md";
         GitBookFile.contents :=
           "# " ++ TagObject.name tag ++ nl ++ nl ++
           "undefined" ++ nl ++ nl ++
           "undefined" ++
           pageBlocks endpoints |}.
Proof.
  intros Hd He. rewrite createTagPage_contents, Hd, He. reflexivity.
Qed.

Lemma absent_fields_render_undefined_pets :
  createTagPage (Some petsTag) [] =
  inr {| GitBookFile.path := "pets.md";
         GitBookFile.contents :=
           "# pets" ++ nl ++ nl ++ "undefined" ++ nl ++ nl ++ "undefined" |}.
Proof.
  exact (absent_fields_render_undefined petsTag [] eq_refl eq_refl).
Defined.

(** * The archive *)

Lemma string_eqb_trans (a b c : string) :
  String.eqb a b = true -> String.eqb b c = true -> String.eqb a c = true.
Proof. rewrite !String.eqb_eq. congruence. Qed.

Section ArchiveFacts.
Variable now : nat -> Z.

(** The entry written last under a name is the one found there. *)
Lemma fileAdd_entry (fuel : nat) (name data : string) (zip : JSZip.t) :
  map_get String.eqb name (JSZip.files (JSZip.fileAdd now fuel name data false zip)) =
  Some {| JSZip.dir := false; JSZip.data := data; JSZip.date := now (JSZip.reads zip) |}.
Proof.
  destruct fuel; simpl; apply (map_get_set_same String.eqb String.eqb_refl).
Qed.

Lemma file_read (root name data : string) (zip : JSZip.t) :
  JSZip.read (root ++ name) (JSZip.file now root name data zip) = Some data.
Proof. unfold JSZip.read, JSZip.file. now rewrite fileAdd_entry. Qed.

Lemma folder_root (root name : string) (zip : JSZip.t) :
  fst (JSZip.folder now root name zip) = JSZip.forceTrailingSlash (root ++ name).
Proof.
  unfold JSZip.folder, JSZip.folderAdd.
  now destruct (map_get String.eqb (JSZip.forceTrailingSlash (root ++ name))
                        (JSZip.files zip)).
Qed.

(** The input text is the last thing written, under [specEntry]. *)
Lemma createZipBundle_spec_entry (gitBookFiles : list GitBookFile.t) (spec : string)
    (parsedSpec : Document.t) :
  JSZip.read specEntry (createZipBundle now gitBookFiles spec parsedSpec) = Some spec.
Proof.
  unfold createZipBundle.
  match goal with
  | |- context [JSZip.folder now EmptyString ".gitbook" ?z] =>
      pose proof (folder_root EmptyString ".gitbook" z) as Hroot;
      destruct (JSZip.folder now EmptyString ".gitbook" z) as [root bundle]
  end.
  simpl in Hroot. subst root.
  change specEntry with (".gitbook/" ++ "openapi.yaml").
  apply file_read.
Qed.
End ArchiveFacts.

(** C6. Whatever the pages, the input text and the parsed document are,
    the archive holds a file under [.gitbook/openapi.yaml] and its contents
    are the input text as it was passed in. *)
Theorem spec_entry_is_input_text :
  forall (now : nat -> Z) (gitBookFiles : list GitBookFile.t) (spec : string)
         (parsedSpec : Document.t),
    specEntry = ".gitbook" ++ "/" ++ "openapi.yaml" /\
    JSZip.read specEntry (createZipBundle now gitBookFiles spec parsedSpec) = Some spec /\
    exists date,
      map_get String.eqb specEntry
              (JSZip.files (createZipBundle now gitBookFiles spec parsedSpec)) =
      Some {| JSZip.dir := false; JSZip.data := spec; JSZip.date := date |}.
Proof.
  intros now gitBookFiles spec parsedSpec.
  pose proof (createZipBundle_spec_entry now gitBookFiles spec parsedSpec) as H.
  split; [reflexivity|]. split; [exact H|].
  unfold JSZip.read in H.
  destruct (map_get String.eqb specEntry
              (JSZip.files (createZipBundle now gitBookFiles spec parsedSpec)))
    as [[d c t]|]; [|discriminate].
  simpl in H. destruct d; [discriminate|]. injection H as ->. eauto.
Qed.

(** ** Termination of [fileAdd]

    A parent folder's name is strictly shorter than the name of its child,
    so the recursion of [fileAdd] through [folderAdd] ends before the fuel
    does. *)

Lemma substring_length (k : nat) (s : string) :
  k <= String.length s -> String.length (substring 0 k s) = k.
Proof.
  revert k. induction s as [|c s IH]; intros [|k]; simpl; try lia.
  intros H. rewrite IH; lia.
Qed.

Lemma lastIndexOfSlash_bound (s : string) (i : nat) :
  JSZip.lastIndexOfSlash s = Some i -> i < String.length s.
Proof.
  revert i. induction s as [|c s IH]; intros i; simpl; [discriminate|].
  destruct (JSZip.lastIndexOfSlash s) as [j|].
  - intros [= <-]. specialize (IH j eq_refl). lia.
  - destruct (Ascii.eqb c "/"); [|discriminate]. intros [= <-]. lia.
Qed.

Lemma lastIndexOfSlash_last (s : string) (i : nat) :
  JSZip.lastIndexOfSlash s = Some i -> S i = String.length s ->
  JSZip.endsWithSlash s = true.
Proof.
  revert i. induction s as [|c s IH]; intros i; simpl; [discriminate|].
  destruct (JSZip.lastIndexOfSlash s) as [j|] eqn:E.
  - intros [= <-] [= Hlen]. rewrite (IH j eq_refl Hlen).
    destruct s; [discriminate|reflexivity].
  - destruct (Ascii.eqb c "/") eqn:Ec; [|discriminate]. intros [= <-] [= Hlen].
    destruct s; [reflexivity|discriminate].
Qed.

Lemma forceTrailingSlash_length (s : string) :
  String.length (JSZip.forceTrailingSlash s) <= S (String.length s).
Proof.
  unfold JSZip.forceTrailingSlash. destruct (JSZip.endsWithSlash s); [lia|].
  rewrite append_length. simpl. lia.
Qed.

Lemma endsWithSlash_app (s : string) : JSZip.endsWithSlash (s ++ "/") = true.
Proof.
  induction s as [|c s IH]; [reflexivity|].
  simpl. destruct (s ++ "/") eqn:E; [|exact IH].
  destruct s; discriminate.
Qed.

Lemma forceTrailingSlash_fixed (s : string) :
  JSZip.forceTrailingSlash (JSZip.forceTrailingSlash s) = JSZip.forceTrailingSlash s.
Proof.
  unfold JSZip.forceTrailingSlash. destruct (JSZip.endsWithSlash s) eqn:E.
  - now rewrite E.
  - now rewrite endsWithSlash_app.
Qed.

Lemma parentFolder_shorter (name : string) (c : ascii) (p : string) :
  JSZip.parentFolder name = String c p ->
  String.length (JSZip.forceTrailingSlash (String c p)) < String.length name.
Proof.
  intros H.
  pose proof (forceTrailingSlash_length (String c p)) as Hf.
  enough (Hp : S (String.length (String c p)) < String.length name) by lia.
  clear Hf. unfold JSZip.parentFolder in H.
  destruct (JSZip.endsWithSlash name) eqn:E.
  - set (s := substring 0 (String.length name - 1) name) in H.
    assert (Hs : String.length s = String.length name - 1)
      by (apply substring_length; lia).
    destruct (JSZip.lastIndexOfSlash s) as [[|i]|] eqn:Ei; try discriminate.
    apply lastIndexOfSlash_bound in Ei.
    rewrite <- H, substring_length by lia. lia.
  - destruct (JSZip.lastIndexOfSlash name) as [[|i]|] eqn:Ei; try discriminate.
    pose proof (lastIndexOfSlash_bound _ _ Ei) as Hb.
    rewrite <- H, substring_length by lia.
    destruct (Nat.eq_dec (S (S i)) (String.length name)) as [Hl|Hl]; [|lia].
    rewrite (lastIndexOfSlash_last _ _ Ei Hl) in E. discriminate.
Qed.

Section Fuel.
Variable now : nat -> Z.

Lemma fileAdd_unfold (fuel : nat) (name data : string) (isDir : bool) (zip : JSZip.t) :
  JSZip.fileAdd now fuel name data isDir zip =
  let date := now (JSZip.reads zip) in
  let zip := {| JSZip.files := JSZip.files zip; JSZip.reads := S (JSZip.reads zip) |} in
  let name := entryName isDir name in
  let parent := JSZip.parentFolder name in
  let zip :=
    match parent with
    | EmptyString => zip
    | _ =>
        let folder := JSZip.forceTrailingSlash parent in
        match map_get String.eqb folder (JSZip.files zip), fuel with
        | None, S fuel' => JSZip.fileAdd now fuel' folder EmptyString true zip
        | _, _ => zip
        end
    end in
  {| JSZip.files := map_set String.eqb name
                      {| JSZip.dir := isDir; JSZip.data := data; JSZip.date := date |}
                      (JSZip.files zip);
     JSZip.reads := JSZip.reads zip |}.
Proof. destruct fuel; reflexivity. Qed.

Lemma fileAdd_enough_fuel (fuel : nat) (name data : string) (isDir : bool) (zip : JSZip.t) :
  String.length (entryName isDir name) <= fuel ->
  JSZip.fileAdd now (S fuel) name data isDir zip = JSZip.fileAdd now fuel name data isDir zip.
Proof.
  revert name data isDir zip.
  induction fuel as [|fuel IH]; intros name data isDir zip Hlen;
    rewrite (fileAdd_unfold (S _)), (fileAdd_unfold _ name); cbv zeta;
    destruct (JSZip.parentFolder (entryName isDir name)) as [|c p] eqn:Hp;
    try reflexivity;
    apply parentFolder_shorter in Hp.
  - lia.
  - destruct (map_get String.eqb _ _); [reflexivity|].
    rewrite IH; [reflexivity|].
    unfold entryName. rewrite forceTrailingSlash_fixed. lia.
Qed.

Lemma fileAdd_fuel (fuel extra : nat) (name data : string) (isDir : bool) (zip : JSZip.t) :
  String.length (entryName isDir name) <= fuel ->
  JSZip.fileAdd now (fuel + extra) name data isDir zip =
  JSZip.fileAdd now fuel name data isDir zip.
Proof.
  intros Hlen. induction extra as [|extra IH].
  - now rewrite Nat.add_0_r.
  - rewrite Nat.add_succ_r, fileAdd_enough_fuel by lia. exact IH.
Qed.
End Fuel.

(** The fuel [file] and [folder] pass is enough: more of it changes
    nothing. *)
Lemma file_fuel (now : nat -> Z) (extra : nat) (root name data : string) (zip : JSZip.t) :
  JSZip.fileAdd now (String.length (root ++ name) + extra) (root ++ name) data false zip =
  JSZip.file now root name data zip.
Proof. apply fileAdd_fuel. simpl. lia. Qed.

Lemma folderAdd_fuel (now : nat -> Z) (extra : nat) (name : string) (zip : JSZip.t) :
  let folder := JSZip.forceTrailingSlash name in
  JSZip.fileAdd now (String.length folder + extra) folder EmptyString true zip =
  JSZip.fileAdd now (String.length folder) folder EmptyString true zip.
Proof.
  intros folder. apply fileAdd_fuel. unfold entryName, folder.
  rewrite forceTrailingSlash_fixed. lia.
Qed.

(** ** The archive with its stamps forgotten *)

Lemma logical_erase (zip : JSZip.t) : JSZip.logical zip = map eraseStamp (JSZip.files zip).
Proof.
  unfold JSZip.logical. apply map_ext. now intros [name o].
Qed.

Lemma erase_map_set (name : string) (o : JSZip.ZipObject)
    (fs : list (string * JSZip.ZipObject)) :
  map eraseStamp (map_set String.eqb name o fs) =
  map_set String.eqb name (JSZip.dir o, JSZip.data o) (map eraseStamp fs).
Proof.
  induction fs as [|[n o'] fs IH]; simpl; [reflexivity|].
  destruct (String.eqb name n); simpl; [reflexivity|now rewrite IH].
Qed.

Lemma erase_map_get (name : string) (fs : list (string * JSZip.ZipObject)) :
  map_get String.eqb name (map eraseStamp fs) =
  option_map (fun o => (JSZip.dir o, JSZip.data o)) (map_get String.eqb name fs).
Proof.
  induction fs as [|[n o] fs IH]; simpl; [reflexivity|].
  now destruct (String.eqb name n).
Qed.

Lemma same_presence (name : string) (fs1 fs2 : list (string * JSZip.ZipObject)) :
  map eraseStamp fs1 = map eraseStamp fs2 ->
  (map_get String.eqb name fs1 = None <-> map_get String.eqb name fs2 = None).
Proof.
  intros H. pose proof (erase_map_get name fs1) as H1.
  pose proof (erase_map_get name fs2) as H2. rewrite H in H1. rewrite H1 in H2.
  destruct (map_get String.eqb name fs1), (map_get String.eqb name fs2);
    simpl in H2; try discriminate; split; intros H0;
    (reflexivity || discriminate H0).
Qed.

Section TwoClocks.
Variables now1 now2 : nat -> Z.

Lemma fileAdd_logical (fuel : nat) (name data : string) (isDir : bool)
    (z1 z2 : JSZip.t) :
  JSZip.logical z1 = JSZip.logical z2 ->
  JSZip.logical (JSZip.fileAdd now1 fuel name data isDir z1) =
  JSZip.logical (JSZip.fileAdd now2 fuel name data isDir z2).
Proof.
  revert name data isDir z1 z2.
  induction fuel as [|fuel IH]; intros name data isDir z1 z2 H;
    rewrite !logical_erase in *; simpl.
  - set (name' := if isDir then JSZip.forceTrailingSlash name else name).
    destruct (JSZip.parentFolder name') as [|c p];
      [|destruct (map_get String.eqb _ (JSZip.files z1)),
                 (map_get String.eqb _ (JSZip.files z2))];
      simpl; rewrite !erase_map_set; simpl; now rewrite H.
  - set (name' := if isDir then JSZip.forceTrailingSlash name else name).
    destruct (JSZip.parentFolder name') as [|c p] eqn:Hp.
    + simpl. rewrite !erase_map_set. simpl. now rewrite H.
    + set (folder := JSZip.forceTrailingSlash (String c p)).
      pose proof (same_presence folder _ _ H) as Hsame.
      destruct (map_get String.eqb folder (JSZip.files z1)) as [o1|] eqn:E1;
        destruct (map_get String.eqb folder (JSZip.files z2)) as [o2|] eqn:E2.
      * simpl. rewrite !erase_map_set. simpl. now rewrite H.
      * destruct Hsame as [_ Hsame]. specialize (Hsame eq_refl). discriminate.
      * destruct Hsame as [Hsame _]. specialize (Hsame eq_refl). discriminate.
      * rewrite !erase_map_set. simpl. f_equal.
        rewrite <- !logical_erase. apply IH.
        rewrite !logical_erase. exact H.
Qed.

Lemma file_logical (root name data : string) (z1 z2 : JSZip.t) :
  JSZip.logical z1 = JSZip.logical z2 ->
  JSZip.logical (JSZip.file now1 root name data z1) =
  JSZip.logical (JSZip.file now2 root name data z2).
Proof. apply fileAdd_logical. Qed.

Lemma folder_logical (root name : string) (z1 z2 : JSZip.t) :
  JSZip.logical z1 = JSZip.logical z2 ->
  JSZip.logical (snd (JSZip.folder now1 root name z1)) =
  JSZip.logical (snd (JSZip.folder now2 root name z2)).
Proof.
  intros H. unfold JSZip.folder, JSZip.folderAdd.
  set (folder := JSZip.forceTrailingSlash (root ++ name)).
  assert (Hsame : map_get String.eqb folder (JSZip.files z1) = None <->
                  map_get String.eqb folder (JSZip.files z2) = None).
  { apply same_presence. now rewrite <- !logical_erase. }
  destruct (map_get String.eqb folder (JSZip.files z1)) as [o1|] eqn:E1;
    destruct (map_get String.eqb folder (JSZip.files z2)) as [o2|] eqn:E2; simpl.
  - exact H.
  - destruct Hsame as [_ Hsame]. specialize (Hsame eq_refl). discriminate.
  - destruct Hsame as [Hsame _]. specialize (Hsame eq_refl). discriminate.
  - now apply fileAdd_logical.
Qed.

Lemma pages_logical (gitBookFiles : list GitBookFile.t) (z1 z2 : JSZip.t) :
  JSZip.logical z1 = JSZip.logical z2 ->
  JSZip.logical
    (fold_left (fun bundle f =>
                  JSZip.file now1 EmptyString (GitBookFile.path f)
                             (GitBookFile.contents f) bundle) gitBookFiles z1) =
  JSZip.logical
    (fold_left (fun bundle f =>
                  JSZip.file now2 EmptyString (GitBookFile.path f)
                             (GitBookFile.contents f) bundle) gitBookFiles z2).
Proof.
  revert z1 z2. induction gitBookFiles as [|f fs IH]; intros z1 z2 H; simpl;
    [exact H|].
  apply IH. now apply file_logical.
Qed.

Lemma createZipBundle_logical (gitBookFiles : list GitBookFile.t) (spec : string)
    (parsedSpec : Document.t) :
  JSZip.logical (createZipBundle now1 gitBookFiles spec parsedSpec) =
  JSZip.logical (createZipBundle now2 gitBookFiles spec parsedSpec).
Proof.
  unfold createZipBundle.
  match goal with
  | |- context [JSZip.folder now1 EmptyString ".gitbook" ?a] =>
      match goal with
      | |- context [JSZip.folder now2 EmptyString ".gitbook" ?b] =>
          pose proof (folder_root now1 EmptyString ".gitbook" a) as Hr1;
          pose proof (folder_root now2 EmptyString ".gitbook" b) as Hr2;
          assert (Hl : JSZip.logical (snd (JSZip.folder now1 EmptyString ".gitbook" a)) =
                       JSZip.logical (snd (JSZip.folder now2 EmptyString ".gitbook" b)))
            by (apply folder_logical, pages_logical;
                do 2 apply file_logical; reflexivity);
          destruct (JSZip.folder now1 EmptyString ".gitbook" a) as [r1 b1];
          destruct (JSZip.folder now2 EmptyString ".gitbook" b) as [r2 b2]
      end
  end.
  simpl in Hr1, Hr2, Hl. subst r1 r2. now apply file_logical.
Qed.
End TwoClocks.

(** C8. Two runs on the same input text, whatever the clock shows during
    each, end alike: with the same exception, or with archives that hold
    the same entries under the same names with the same contents in the
    same order.  (The parser is taken as a function of the text.) *)
Theorem runs_agree :
  forall (parse : string -> result Document.t) (now1 now2 : nat -> Z) (raw : string),
    outcome (handleFileUpload parse now1 raw) = outcome (handleFileUpload parse now2 raw).
Proof.
  intros parse now1 now2 raw. unfold handleFileUpload.
  destruct (parse raw) as [e|api]; [reflexivity|]. simpl.
  destruct (collateTags api) as [e|tagMap]; [reflexivity|]. simpl.
  destruct (makePagesForTagGroups tagMap) as [e|pages]; [reflexivity|]. simpl.
  f_equal. apply createZipBundle_logical.
Qed.

(** ** Names that are never written *)

Lemma lastChar_app (a b : string) : b <> EmptyString -> lastChar (a ++ b) = lastChar b.
Proof.
  intros Hb. induction a as [|c a IH]; [reflexivity|].
  simpl. rewrite IH. destruct (a ++ b) eqn:E; [|reflexivity].
  destruct a; simpl in E; [contradiction|discriminate].
Qed.

Lemma endsWithSlash_lastChar (s : string) :
  JSZip.endsWithSlash s = true -> lastChar s = Some "/"%char.
Proof.
  induction s as [|c s IH]; [discriminate|].
  simpl. destruct s; [|exact IH].
  intros H. apply Ascii.eqb_eq in H. now subst.
Qed.

Lemma forceTrailingSlash_lastChar (s : string) :
  lastChar (JSZip.forceTrailingSlash s) = Some "/"%char.
Proof.
  unfold JSZip.forceTrailingSlash. destruct (JSZip.endsWithSlash s) eqn:E.
  - now apply endsWithSlash_lastChar.
  - rewrite lastChar_app; [reflexivity|discriminate].
Qed.

Section Absent.
Variable now : nat -> Z.
Variable target : string.
Hypothesis target_no_folder : lastChar target <> Some "/"%char.

Lemma fileAdd_absent (fuel : nat) (name data : string) (isDir : bool) (zip : JSZip.t) :
  (isDir = false -> name <> target) ->
  map_get String.eqb target (JSZip.files zip) = None ->
  map_get String.eqb target (JSZip.files (JSZip.fileAdd now fuel name data isDir zip)) = None.
Proof.
  revert name data isDir zip.
  induction fuel as [|fuel IH]; intros name data isDir zip Hname Hzip; simpl;
    set (name' := if isDir then JSZip.forceTrailingSlash name else name);
    (assert (Hne : String.eqb name' target = false);
     [apply String.eqb_neq; subst name'; destruct isDir;
      [intros E; apply target_no_folder; rewrite <- E;
       apply forceTrailingSlash_lastChar|now apply Hname]|]);
    rewrite (map_get_set_other String.eqb String.eqb_sym string_eqb_trans _ _ _ _ Hne).
  - destruct (JSZip.parentFolder name'); [exact Hzip|].
    destruct (map_get String.eqb (JSZip.forceTrailingSlash _) (JSZip.files zip));
      exact Hzip.
  - destruct (JSZip.parentFolder name') as [|c p]; [exact Hzip|].
    destruct (map_get String.eqb (JSZip.forceTrailingSlash _) (JSZip.files zip));
      [exact Hzip|].
    apply IH; [discriminate|exact Hzip].
Qed.

Lemma folder_absent (root name : string) (zip : JSZip.t) :
  map_get String.eqb target (JSZip.files zip) = None ->
  map_get String.eqb target (JSZip.files (snd (JSZip.folder now root name zip))) = None.
Proof.
  intros H. unfold JSZip.folder, JSZip.folderAdd.
  destruct (map_get String.eqb (JSZip.forceTrailingSlash _) (JSZip.files zip)); simpl;
    [exact H|].
  apply fileAdd_absent; [discriminate|exact H].
Qed.

Lemma pages_absent (gitBookFiles : list GitBookFile.t) (zip : JSZip.t) :
  Forall (fun f => GitBookFile.path f <> target) gitBookFiles ->
  map_get String.eqb target (JSZip.files zip) = None ->
  map_get String.eqb target
    (JSZip.files
       (fold_left (fun bundle f =>
                     JSZip.file now EmptyString (GitBookFile.path f)
                                (GitBookFile.contents f) bundle) gitBookFiles zip)) = None.
Proof.
  revert zip. induction gitBookFiles as [|f fs IH]; intros zip Hfs Hzip; simpl;
    [exact Hzip|].
  inversion Hfs as [|? ? Hf Hfs']; subst.
  apply IH; [exact Hfs'|]. unfold JSZip.file. apply fileAdd_absent; auto.
Qed.

Lemma createZipBundle_absent (gitBookFiles : list GitBookFile.t) (spec : string)
    (parsedSpec : Document.t) :
  target <> "SUMMARY.md" -> target <> "README.md" -> target <> specEntry ->
  Forall (fun f => GitBookFile.path f <> target) gitBookFiles ->
  JSZip.read target (createZipBundle now gitBookFiles spec parsedSpec) = None.
Proof.
  intros Hs Hr Hspec Hfs. unfold JSZip.read, createZipBundle.
  match goal with
  | |- context [JSZip.folder now EmptyString ".gitbook" ?z] =>
      pose proof (folder_root now EmptyString ".gitbook" z) as Hroot;
      assert (Hz : map_get String.eqb target
                     (JSZip.files (snd (JSZip.folder now EmptyString ".gitbook" z))) = None);
      [|destruct (JSZip.folder now EmptyString ".gitbook" z) as [root bundle]]
  end.
  - apply folder_absent, pages_absent; [exact Hfs|].
    unfold JSZip.file. apply fileAdd_absent; [intros _; simpl; congruence|].
    apply fileAdd_absent; [intros _; simpl; congruence|reflexivity].
  - simpl in Hroot, Hz. subst root. unfold JSZip.file.
    rewrite fileAdd_absent; [reflexivity| |exact Hz].
    intros _. simpl. unfold specEntry in Hspec. congruence.
Qed.
End Absent.

Lemma makePages_paths (m : TagMap) (pages : list GitBookFile.t) :
  makePagesForTagGroups m = inr pages ->
  Forall2 (fun entry page =>
             exists tag, fst entry = Some tag /\
                         createTagPage (Some (TagRef.target tag)) (snd entry) = inr page)
          m pages.
Proof.
  unfold makePagesForTagGroups. revert pages.
  induction m as [|[[r|] es] m IH]; intros pages; cbn [mapM option_map].
  - intros [= <-]. constructor.
  - destruct (createTagPage (Some (TagRef.target r)) es) as [e|page] eqn:E;
      cbn [bind]; [discriminate|].
    match goal with
    | |- context [mapM ?f m] => destruct (mapM f m) as [e|pages'] eqn:E'
    end; cbn [bind ret]; [discriminate|].
    intros [= <-]. constructor; [|now apply IH].
    exists r. auto.
  - discriminate.
Qed.

Lemma page_path_lastChar (tag : TagObject.t) (endpoints : list Endpoint.t)
    (page : GitBookFile.t) :
  createTagPage (Some tag) endpoints = inr page ->
  GitBookFile.path page = TagObject.name tag ++ ".md" /\
  lastChar (GitBookFile.path page) = Some "d"%char.
Proof.
  rewrite createTagPage_contents. intros [= <-]. simpl. split; [reflexivity|].
  rewrite lastChar_app; [reflexivity|discriminate].
Qed.

(** C4. Every block names [./.gitbook/assets/openapi.yaml], while the
    archive of a run stores the input under [.gitbook/openapi.yaml] and has
    no file under [.gitbook/assets/openapi.yaml], whichever folder of the
    archive the reference is resolved against. *)
Theorem blocks_name_a_missing_entry :
  forall (parse : string -> result Document.t) (now : nat -> Z) (raw : string)
         (zip : JSZip.t),
    handleFileUpload parse now raw = inr zip ->
    (forall endpoint,
        occurs ("src=" ++ dq ++ swaggerSrc ++ dq) (createGitBookOpenAPITag endpoint) = true) /\
    JSZip.read specEntry zip = Some raw /\
    (forall dir, JSZip.read (dir ++ resolveRelative swaggerSrc) zip = None).
Proof.
  intros parse now raw zip. unfold handleFileUpload.
  destruct (parse raw) as [e|api]; [discriminate|]. simpl.
  destruct (collateTags api) as [e|tagMap]; [discriminate|]. simpl.
  destruct (makePagesForTagGroups tagMap) as [e|pages] eqn:Hpages; [discriminate|]. simpl.
  intros [= <-]. split; [|split].
  - intros endpoint. reflexivity.
  - apply createZipBundle_spec_entry.
  - intros dir. cbv [resolveRelative swaggerSrc].
    assert (Hlast : lastChar (dir ++ ".gitbook/assets/openapi.yaml") = Some "l"%char)
      by (rewrite lastChar_app; [reflexivity|discriminate]).
    assert (Hlen : 28 <= String.length (dir ++ ".gitbook/assets/openapi.yaml"))
      by (rewrite append_length; simpl; lia).
    set (target := dir ++ ".gitbook/assets/openapi.yaml") in *. clearbody target.
    apply createZipBundle_absent.
    + rewrite Hlast. discriminate.
    + intros E. rewrite E in Hlast. discriminate.
    + intros E. rewrite E in Hlast. discriminate.
    + intros E. rewrite E in Hlen. simpl in Hlen. lia.
    + apply makePages_paths in Hpages.
      induction Hpages as [|entry page m pages (tag & _ & Hpage) _ IH]; constructor;
        [|exact IH].
      apply page_path_lastChar in Hpage as [_ Hd].
      intros E. rewrite E, Hlast in Hd. discriminate.
Qed.

Lemma blocks_name_a_missing_entry_petStore :
  exists zip,
    handleFileUpload (fun _ => ret petStore) tickingClock "openapi: 3.0.0" = inr zip /\
    (forall endpoint,
        occurs ("src=" ++ dq ++ swaggerSrc ++ dq) (createGitBookOpenAPITag endpoint) = true) /\
    JSZip.read specEntry zip = Some "openapi: 3.0.0" /\
    (forall dir, JSZip.read (dir ++ resolveRelative swaggerSrc) zip = None).
Proof.
  eexists. split; [reflexivity|].
  apply (blocks_name_a_missing_entry (fun _ => ret petStore) tickingClock). reflexivity.
Defined.

(** * The summary *)

Lemma lines_cut (a b : string) :
  hasLineFeed a = false -> lines (a ++ String (ascii_of_nat 10) b) = a :: lines b.
Proof.
  induction a as [|c a IH]; simpl; [reflexivity|].
  rewrite orb_false_iff. intros [Hc Ha]. now rewrite Hc, (IH Ha).
Qed.

Lemma lines_app (a b : string) :
  hasLineFeed a = false -> lines (a ++ nl ++ b) = a :: lines b.
Proof. apply lines_cut. Qed.

Lemma lines_single (a : string) : hasLineFeed a = false -> lines a = [a].
Proof.
  induction a as [|c a IH]; simpl; [reflexivity|].
  rewrite orb_false_iff. intros [Hc Ha]. now rewrite Hc, (IH Ha).
Qed.

Lemma lines_join (ls : list string) :
  Forall (fun l => hasLineFeed l = false) ls -> ls <> [] -> lines (join nl ls) = ls.
Proof.
  induction ls as [|x ls IH]; [congruence|].
  intros Hall _. inversion Hall as [|? ? Hx Hls]; subst.
  destruct ls as [|y ls]; [now apply lines_single|].
  change (join nl (x :: y :: ls)) with (x ++ nl ++ join nl (y :: ls)).
  rewrite (lines_app _ _ Hx), IH; [reflexivity|exact Hls|discriminate].
Qed.

Lemma hasLineFeed_app (a b : string) :
  hasLineFeed (a ++ b) = hasLineFeed a || hasLineFeed b.
Proof.
  induction a as [|c a IH]; simpl; [reflexivity|]. now rewrite IH, orb_assoc.
Qed.

Lemma summaryLink_line (file : GitBookFile.t) :
  hasLineFeed (GitBookFile.path file) = false ->
  hasLineFeed (summaryLink file) = false /\ isEmpty (summaryLink file) = false.
Proof.
  intros H. unfold summaryLink. split; [|reflexivity].
  rewrite !hasLineFeed_app, H. reflexivity.
Qed.

Lemma createSummaryFile_lines (gitBookFiles : list GitBookFile.t) :
  lines (createSummaryFile gitBookFiles) =
  "# Table of contents" :: EmptyString :: lines (join nl (map summaryLink gitBookFiles)).
Proof.
  unfold createSummaryFile.
  rewrite lines_app by reflexivity.
  exact (f_equal (cons _) (lines_app EmptyString _ eq_refl)).
Qed.

Lemma createSummaryFile_links (gitBookFiles : list GitBookFile.t) :
  Forall (fun f => hasLineFeed (GitBookFile.path f) = false) gitBookFiles ->
  summaryLinks (createSummaryFile gitBookFiles) = map summaryLink gitBookFiles.
Proof.
  intros Hall. unfold summaryLinks. rewrite createSummaryFile_lines.
  cbn [skipn]. destruct gitBookFiles as [|f fs]; [reflexivity|].
  rewrite lines_join.
  - generalize dependent (f :: fs). intros l Hl.
    induction Hl as [|x l Hx _ IH]; [reflexivity|]. cbn [map filter].
    destruct (summaryLink_line x Hx) as [_ ->]. cbn [negb]. now rewrite IH.
  - clear -Hall. induction Hall as [|x l Hx _ IH]; constructor; [|exact IH].
    now apply summaryLink_line.
  - discriminate.
Qed.

Lemma prefix_app (a b : string) : prefix a (a ++ b) = true.
Proof.
  induction a as [|c a IH]; simpl; [now destruct b|].
  now destruct (ascii_dec c c).
Qed.

(** C9. Every summary starts with the line [# Table of contents] and a
    blank line; the links come after them. *)
Theorem summary_starts_with_heading :
  forall gitBookFiles : list GitBookFile.t,
    prefix ("# Table of contents" ++ nl ++ nl) (createSummaryFile gitBookFiles) = true /\
    lines (createSummaryFile gitBookFiles) =
    "# Table of contents" :: EmptyString ::
      lines (join nl (map summaryLink gitBookFiles)).
Proof.
  intros gitBookFiles. split; [|apply createSummaryFile_lines].
  unfold createSummaryFile. rewrite <- !append_assoc. apply prefix_app.
Qed.

(** ** Pages in the order of the keys *)

Lemma firstOccurrences_In (k : TagKey) (seen ks : list TagKey) :
  In k (firstOccurrences seen ks) -> In k ks.
Proof.
  revert seen. induction ks as [|k0 ks IH]; intros seen; simpl; [tauto|].
  destruct (hasKey k0 seen); [eauto|].
  intros [H|H]; eauto.
Qed.

Lemma collateTags_keys (api : Document.t) (tagMap : TagMap) :
  collateTags api = inr tagMap ->
  keys tagMap = firstOccurrences [] (map fst (insertions api)).
Proof.
  intros H. apply collateTags_inversion in H as [_ ->].
  now rewrite keys_applyInsertions.
Qed.

Lemma insertions_keys (api : Document.t) (k : TagKey) :
  In k (map fst (insertions api)) ->
  exists e, In e (operations api) /\ In k (keysOf api e).
Proof.
  unfold insertions. rewrite in_map_iff. intros ([k' e'] & <- & Hin).
  apply in_flat_map in Hin as (e & He & Hin).
  apply in_map_iff in Hin as (k0 & [= <- <-] & Hk). eauto.
Qed.

Lemma makePages_returns (m : TagMap) :
  (forall k, In k (keys m) -> k <> None) ->
  exists pages, makePagesForTagGroups m = inr pages.
Proof.
  unfold makePagesForTagGroups.
  induction m as [|[[r|] es] m IH]; intros Hk; cbn [mapM option_map].
  - eexists. reflexivity.
  - destruct (createTagPage_object (TagRef.target r) es) as (page & -> & _).
    destruct IH as (pages & ->); [intros k Hin; apply Hk; now right|].
    eexists. reflexivity.
  - exfalso. apply (Hk None); [now left|reflexivity].
Qed.

Lemma resolvable_keys (api : Document.t) (tagMap : TagMap) (k : TagKey) :
  resolvable api = true -> collateTags api = inr tagMap ->
  In k (keys tagMap) -> k <> None.
Proof.
  unfold resolvable. rewrite andb_true_iff. intros [_ Hres] Hrun Hin.
  rewrite (collateTags_keys _ _ Hrun) in Hin.
  apply firstOccurrences_In, insertions_keys in Hin as (e & He & Hk).
  rewrite forallb_forall in Hres. specialize (Hres e He).
  unfold resolvedOperation in Hres. rewrite forallb_forall in Hres.
  specialize (Hres k Hk). now destruct k.
Qed.

Lemma pages_paths (m : TagMap) (pages : list GitBookFile.t) :
  makePagesForTagGroups m = inr pages ->
  map GitBookFile.path pages = map keyPath (keys m).
Proof.
  intros H. apply makePages_paths in H.
  induction H as [|[k es] page m pages (tag & Hk & Hpage) _ IH]; [reflexivity|].
  simpl in *. subst k. apply page_path_lastChar in Hpage as [-> _].
  now rewrite IH.
Qed.

(** C5. On a document whose tag names all resolve, the pages are made in
    the order of the keys of the grouping, which is the order in which the
    keys were first inserted by [collateTags]; the summary is the heading
    followed by one link [[path](path)] per page, in the order of the
    pages; and when no path holds a line feed, the link lines read back
    from the summary are exactly those links. *)
Theorem summary_links_are_pages (api : Document.t) :
  resolvable api = true ->
  exists tagMap pages,
    collateTags api = inr tagMap /\
    makePagesForTagGroups tagMap = inr pages /\
    keys tagMap = firstOccurrences [] (map fst (insertions api)) /\
    map GitBookFile.path pages = map keyPath (keys tagMap) /\
    createSummaryFile pages =
      "# Table of contents" ++ nl ++ nl ++
      join nl (map (fun p => "[" ++ p ++ "](" ++ p ++ ")") (map GitBookFile.path pages)) /\
    (Forall (fun p => hasLineFeed p = false) (map GitBookFile.path pages) ->
     summaryLinks (createSummaryFile pages) =
     map (fun p => "[" ++ p ++ "](" ++ p ++ ")") (map GitBookFile.path pages)).
Proof.
  intros Hres.
  assert (Hok : collatable api = true)
    by (unfold resolvable in Hres; now apply andb_true_iff in Hres as [? _]).
  pose proof (collateTags_returns api Hok) as Hrun.
  set (tagMap := applyInsertions (insertions api) []) in *.
  destruct (makePages_returns tagMap) as (pages & Hpages).
  { intros k. now apply (resolvable_keys api tagMap k). }
  exists tagMap, pages. split; [exact Hrun|]. split; [exact Hpages|].
  split; [now apply collateTags_keys|]. split; [now apply pages_paths|].
  rewrite map_map. split; [reflexivity|].
  intros Hlf. apply createSummaryFile_links.
  now rewrite Forall_map in Hlf.
Qed.

Lemma summary_links_are_pages_petStore :
  exists tagMap pages,
    collateTags petStore = inr tagMap /\
    makePagesForTagGroups tagMap = inr pages /\
    keys tagMap = firstOccurrences [] (map fst (insertions petStore)) /\
    map GitBookFile.path pages = map keyPath (keys tagMap) /\
    createSummaryFile pages =
      "# Table of contents" ++ nl ++ nl ++
      join nl (map (fun p => "[" ++ p ++ "](" ++ p ++ ")") (map GitBookFile.path pages)) /\
    (Forall (fun p => hasLineFeed p = false) (map GitBookFile.path pages) ->
     summaryLinks (createSummaryFile pages) =
     map (fun p => "[" ++ p ++ "](" ++ p ++ ")") (map GitBookFile.path pages)).
Proof.
  apply (summary_links_are_pages petStore). reflexivity.
Defined.

(** * Documents without untagged operations *)




Lemma find_declared (tags : list TagObject.t) (tagName : string) (r : TagRef.t) :
  find 0 tags tagName = Some r -> In (TagRef.target r) tags.
Proof.
  intros H. apply find_addr in H as (_ & Hnth & _). now apply nth_error_In in Hnth.
Qed.

Lemma append_cancel_r (a b c : string) : a ++ c = b ++ c -> a = b.
Proof.
  intros H. apply (append_same_length a c b c H).
  apply (f_equal String.length) in H. rewrite !append_length in H. lia.
Qed.






(** * Further properties of the grouping *)

Lemma filed_calls_of_endpoint (tag : TagKey) (e : Endpoint.t) (ks : list TagKey) :
  map snd (filter (fun call : TagKey * Endpoint.t => key_eqb (fst call) tag)
                  (map (fun k => (k, e)) ks)) =
  repeat e (List.length (filter (fun k => key_eqb k tag) ks)).
Proof.
  induction ks as [|k ks IH]; simpl; [reflexivity|].
  destruct (key_eqb k tag); simpl; now rewrite IH.
Qed.

(** X2. The group of a key lists the endpoints in the order of the
    document, each as many times as the key is among the keys of the
    endpoint: nothing is reordered and nothing is deduplicated. *)
Theorem group_in_document_order (api : Document.t) (tagMap : TagMap) (tag : TagKey) :
  collateTags api = inr tagMap ->
  group tag tagMap =
  flat_map (fun e => repeat e (timesFiled api tag e)) (operations api).
Proof.
  intros H. apply collateTags_inversion in H as [_ ->].
  rewrite group_applyInsertions. simpl. unfold insertions, timesFiled.
  induction (operations api) as [|e ops IH]; simpl; [reflexivity|].
  now rewrite filter_app, map_app, IH, filed_calls_of_endpoint.
Qed.

Lemma group_in_document_order_petStore :
  exists tagMap,
    collateTags petStore = inr tagMap /\
    group (Some untaggedTag) tagMap =
    flat_map (fun e => repeat e (timesFiled petStore (Some untaggedTag) e))
             (operations petStore).
Proof.
  eexists. split; [reflexivity|].
  apply (group_in_document_order petStore). reflexivity.
Defined.

Lemma find_first (k : nat) (tags : list TagObject.t) (tagName : string) (i : nat)
    (tag : TagObject.t) :
  firstNamed tags tagName i tag ->
  find k tags tagName = Some {| TagRef.addr := S (k + i); TagRef.target := tag |}.
Proof.
  revert k i. induction tags as [|t0 tags IH]; intros k i (Hnth & Hname & Hfirst).
  - destruct i; discriminate.
  - destruct i as [|i]; simpl in Hnth |- *.
    + injection Hnth as ->. apply String.eqb_eq in Hname. rewrite Hname.
      now rewrite Nat.add_0_r.
    + assert (Hne : String.eqb (TagObject.name t0) tagName = false).
      { apply String.eqb_neq. apply (Hfirst 0 t0); [lia|reflexivity]. }
      rewrite Hne. rewrite (IH (S k) i).
      * now rewrite Nat.add_succ_r.
      * split; [exact Hnth|]. split; [exact Hname|].
        intros j other Hj Hother. apply (Hfirst (S j) other); [lia|exact Hother].
Qed.

Lemma find_undeclared (k : nat) (tags : list TagObject.t) (tagName : string) :
  (forall tag, In tag tags -> TagObject.name tag <> tagName) <->
  find k tags tagName = None.
Proof.
  revert k. induction tags as [|t0 tags IH]; intros k; simpl.
  - split; [reflexivity|intros _ tag []].
  - destruct (String.eqb (TagObject.name t0) tagName) eqn:E.
    + split; [|discriminate]. intros H. apply String.eqb_eq in E.
      exfalso. apply (H t0); auto.
    + rewrite <- (IH (S k)). apply String.eqb_neq in E. split.
      * intros H tag Hin. apply H. now right.
      * intros H tag [<-|Hin]; auto.
Qed.

Lemma find_is_first (k : nat) (tags : list TagObject.t) (tagName : string) (r : TagRef.t) :
  find k tags tagName = Some r ->
  exists i, TagRef.addr r = S (k + i) /\ firstNamed tags tagName i (TagRef.target r).
Proof.
  revert k. induction tags as [|t0 tags IH]; intros k; simpl; [discriminate|].
  destruct (String.eqb (TagObject.name t0) tagName) eqn:E.
  - intros [= <-]. exists 0. simpl. rewrite Nat.add_0_r. split; [reflexivity|].
    apply String.eqb_eq in E. split; [reflexivity|]. split; [exact E|]. intros j other Hj. lia.
  - intros H. destruct (IH (S k) H) as (i & Haddr & Hnth & Hname & Hfirst).
    exists (S i). split; [rewrite Haddr; lia|]. split; [exact Hnth|]. split; [exact Hname|].
    intros [|j] other Hj Hother.
    + simpl in Hother. injection Hother as <-. now apply String.eqb_neq.
    + apply (Hfirst j other); [lia|exact Hother].
Qed.

(** X1. Fan-out.  An operation that names tags is in the group of every
    tag it names: for each name, in the group of the first declared tag
    with that name (the key is that element of [api.tags]), or in the group
    of the key [undefined] when no declared tag has the name.  It is in no
    other group: a group that holds it is the group of the first declared
    tag with one of its names, or the group of [undefined] with one of its
    names undeclared. *)
Theorem fan_out (api : Document.t) (tagMap : TagMap) (e : Endpoint.t)
    (t : string) (ts : list string) :
  collateTags api = inr tagMap ->
  flattened api e ->
  OperationObject.tags (Endpoint.operationObject e) = Some (t :: ts) ->
  (forall tagName,
      In tagName (t :: ts) ->
      (forall i tag,
          firstNamed (declaredTags api) tagName i tag ->
          In e (group (Some {| TagRef.addr := S i; TagRef.target := tag |}) tagMap)) /\
      ((forall tag, In tag (declaredTags api) -> TagObject.name tag <> tagName) ->
       In e (group None tagMap))) /\
  (forall key,
      In e (group key tagMap) ->
      exists tagName,
        In tagName (t :: ts) /\
        match key with
        | Some r => exists i tag, TagRef.addr r = S i /\
                                  firstNamed (declaredTags api) tagName i tag
        | None => forall tag, In tag (declaredTags api) -> TagObject.name tag <> tagName
        end).
Proof.
  intros Hrun He Htags. apply operations_flattened in He.
  assert (Hmem : forall key,
             In e (group key tagMap) <->
             exists tagName, In tagName (t :: ts) /\
                             key_eqb key (find 0 (declaredTags api) tagName) = true).
  { intros key. rewrite (group_membership api tagMap key e Hrun).
    unfold hasKey, keysOf. rewrite Htags, existsb_exists. split.
    - intros [_ (k & Hk & Heq)]. apply in_map_iff in Hk as (n & <- & Hn). eauto.
    - intros (n & Hn & Heq). split; [exact He|].
      exists (find 0 (declaredTags api) n). split; [|exact Heq]. now apply in_map. }
  split.
  - intros tagName Hname. split.
    + intros i tag Hfirst. apply Hmem. exists tagName. split; [exact Hname|].
      rewrite (find_first 0 _ _ i tag Hfirst). simpl. apply Nat.eqb_refl.
    + intros Hnone. apply Hmem. exists tagName. split; [exact Hname|].
      apply (find_undeclared 0) in Hnone. now rewrite Hnone.
  - intros key Hin. apply Hmem in Hin as (tagName & Hname & Heq).
    exists tagName. split; [exact Hname|].
    destruct (find 0 (declaredTags api) tagName) as [r'|] eqn:Hfind.
    + destruct key as [r|]; [|discriminate]. simpl in Heq. apply Nat.eqb_eq in Heq.
      destruct (find_is_first 0 _ _ _ Hfind) as (i & Haddr & Hfirst).
      exists i, (TagRef.target r'). split; [rewrite Heq; exact Haddr|exact Hfirst].
    + destruct key as [r|]; [discriminate|]. now apply (find_undeclared 0).
Qed.

(** The operation of [twoTags] that names [pets] and [owners] is in the
    group of the first tag named [pets] and in the group of [owners], and
    not in the group of the second tag named [pets]. *)
Lemma fan_out_twoTags :
  exists tagMap,
    collateTags twoTags = inr tagMap /\
    In getPetsOfOwners
       (group (Some {| TagRef.addr := 1; TagRef.target := petsTag |}) tagMap) /\
    In getPetsOfOwners
       (group (Some {| TagRef.addr := 2; TagRef.target := ownersTag |}) tagMap) /\
    ~ In getPetsOfOwners
         (group (Some {| TagRef.addr := 3; TagRef.target := petsAgain |}) tagMap) /\
    ~ In getPetsOfOwners (group (Some untaggedTag) tagMap) /\
    ~ In getPetsOfOwners (group None tagMap).
Proof.
  eexists. split; [reflexivity|].
  match goal with
  | |- In _ (group _ ?m) /\ _ =>
      destruct (fan_out twoTags m getPetsOfOwners "pets" ["owners"]) as [Hin Hout]
  end.
  - reflexivity.
  - exists [("get", operationWith (Some ["pets"; "owners"]))]. simpl. auto.
  - reflexivity.
  - split; [|split; [|split; [|split]]].
    + apply (Hin "pets"); [simpl; auto|].
      split; [reflexivity|]. split; [reflexivity|]. intros j other Hj. lia.
    + apply (Hin "owners"); [simpl; auto|].
      split; [reflexivity|]. split; [reflexivity|].
      intros [|j] other Hj Hother; [|lia].
      injection Hother as <-. discriminate.
    + intros H. apply Hout in H as (tagName & _ & i & tag & Haddr & Hnth & Hname & Hfirst).
      injection Haddr as <-. injection Hnth as <-.
      apply (Hfirst 0 petsTag); [lia|reflexivity|].
      simpl in Hname. exact Hname.
    + intros H. apply Hout in H as (tagName & _ & i & tag & Haddr & _). discriminate.
    + intros H. apply Hout in H as (tagName & Hname & Hnone).
      destruct Hname as [<-|[<-|[]]].
      * apply (Hnone petsTag); [simpl; auto|reflexivity].
      * apply (Hnone ownersTag); [simpl; auto|reflexivity].
Defined.

(** ** The keys *)

Lemma applyInsertions_nonempty (calls : list (TagKey * Endpoint.t)) (m : TagMap) :
  (forall k es, In (k, es) m -> es <> []) ->
  forall k es, In (k, es) (applyInsertions calls m) -> es <> [].
Proof.
  revert m. induction calls as [|[k0 e0] calls IH]; intros m Hm; [exact Hm|].
  apply IH. intros k es Hin. unfold append in Hin. simpl in Hin.
  apply (map_set_In key_eqb key_eqb_refl) in Hin as [[_ ->]|Hin]; [|eauto].
  intros E. apply app_eq_nil in E as [_ E]. discriminate.
Qed.

Lemma hasKey_group (k : TagKey) (m : TagMap) :
  (forall k' es, In (k', es) m -> es <> []) ->
  (hasKey k (keys m) = true <-> group k m <> []).
Proof.
  intros Hm. unfold hasKey, keys, group.
  pose proof (map_get_none key_eqb k m) as Hnone.
  destruct (map_get key_eqb k m) as [es|] eqn:E.
  - destruct (existsb (key_eqb k) (map fst m)); [|destruct Hnone as [_ H]; discriminate H; reflexivity].
    split; [|reflexivity]. intros _.
    destruct (map_get_In key_eqb k es m E) as (k' & _ & Hin). eauto.
  - destruct Hnone as [H _]. rewrite (H eq_refl). split; [discriminate|congruence].
Qed.

(** X3. The grouping has no two entries with the same key and no entry
    without endpoints, and a key is in it exactly when some endpoint is
    filed under it: a declared tag that no operation names gets no entry,
    and so no page. *)
Theorem grouping_keys (api : Document.t) (tagMap : TagMap) :
  collateTags api = inr tagMap ->
  uniqueKeys (keys tagMap) = true /\
  (forall tag endpoints, In (tag, endpoints) tagMap -> endpoints <> []) /\
  (forall tag,
      hasKey tag (keys tagMap) = true <->
      exists e, In e (operations api) /\ hasKey tag (keysOf api e) = true).
Proof.
  intros Hrun. pose proof Hrun as Hinv. apply collateTags_inversion in Hinv as [_ Hm].
  assert (Hne : forall k es, In (k, es) tagMap -> es <> []).
  { rewrite Hm. apply applyInsertions_nonempty. intros k es []. }
  split; [rewrite Hm; now apply uniqueKeys_applyInsertions|].
  split; [exact Hne|].
  intros tag. rewrite (hasKey_group tag tagMap Hne). split.
  - intros Hg. destruct (group tag tagMap) as [|e es] eqn:E; [congruence|].
    exists e. apply (group_membership api tagMap tag e Hrun). rewrite E. now left.
  - intros (e & He). apply (group_membership api tagMap tag e Hrun) in He.
    intros E. rewrite E in He. destruct He.
Qed.

Lemma grouping_keys_petStore :
  exists tagMap,
    collateTags petStore = inr tagMap /\
    uniqueKeys (keys tagMap) = true /\
    (forall tag endpoints, In (tag, endpoints) tagMap -> endpoints <> []) /\
    (forall tag,
        hasKey tag (keys tagMap) = true <->
        exists e, In e (operations petStore) /\ hasKey tag (keysOf petStore e) = true).
Proof.
  eexists. split; [reflexivity|].
  apply (grouping_keys petStore). reflexivity.
Defined.

(** ** A document without a top-level [tags] array *)

Lemma collate_forEach_find (api : Document.t) (ops : list Endpoint.t) (m : TagMap) :
  Document.tags api = None ->
  forallb hasTagsArray ops = true ->
  existsb declaresTag ops = true ->
  forEach (collateOperation api) ops m = inl (TypeError "find").
Proof.
  intros Hnone. revert m. induction ops as [|e ops IH]; intros m; simpl; [discriminate|].
  rewrite andb_true_iff. intros [He Hops].
  unfold hasTagsArray in He. unfold declaresTag at 1. unfold collateOperation.
  destruct (OperationObject.tags (Endpoint.operationObject e)) as [[|t ts]|];
    [|reflexivity + (simpl; now rewrite Hnone)|discriminate].
  simpl. intros Hex. now apply IH.
Qed.

Lemma collate_forEach_untagged (api : Document.t) (ops : list Endpoint.t) (m : TagMap) :
  forallb isUntagged ops = true ->
  forEach (collateOperation api) ops m =
  inr (fold_left (fun m e => append (Some untaggedTag) e m) ops m).
Proof.
  revert m. induction ops as [|e ops IH]; intros m; simpl; [reflexivity|].
  rewrite andb_true_iff. intros [He Hops].
  unfold isUntagged in He. unfold collateOperation at 1.
  destruct (OperationObject.tags (Endpoint.operationObject e)) as [[|t ts]|];
    try discriminate.
  simpl. now apply IH.
Qed.

Lemma untagged_fold (ops acc : list Endpoint.t) :
  fold_left (fun m e => append (Some untaggedTag) e m) ops [(Some untaggedTag, acc)] =
  [(Some untaggedTag, (acc ++ ops)%list)].
Proof.
  revert acc. induction ops as [|e ops IH]; intros acc; simpl.
  - now rewrite app_nil_r.
  - unfold append at 2. simpl. rewrite IH, <- app_assoc. reflexivity.
Qed.

(** X4. When the document has no top-level [tags] array (and every entry
    has its own), collation throws the [TypeError] of reading [find] as
    soon as one operation names a tag; when none does, it returns the one
    untagged group holding every endpoint in document order, or nothing
    for a document without operations. *)
Theorem tags_array_absent (api : Document.t) :
  Document.tags api = None ->
  forallb hasTagsArray (operations api) = true ->
  (existsb declaresTag (operations api) = true ->
   collateTags api = inl (TypeError "find")) /\
  (existsb declaresTag (operations api) = false ->
   collateTags api =
   inr (match operations api with
        | [] => []
        | _ :: _ => [(Some untaggedTag, operations api)]
        end)).
Proof.
  intros Hnone Harr. split.
  - intros Hex. now apply collate_forEach_find.
  - intros Hex. unfold collateTags.
    assert (Hall : forallb isUntagged (operations api) = true).
    { apply forallb_forall. intros e He.
      rewrite forallb_forall in Harr. specialize (Harr e He).
      assert (Hd : declaresTag e = false).
      { destruct (declaresTag e) eqn:E; [|reflexivity].
        rewrite <- Hex. symmetry. apply existsb_exists. eauto. }
      unfold hasTagsArray in Harr. unfold declaresTag in Hd. unfold isUntagged.
      now destruct (OperationObject.tags (Endpoint.operationObject e)) as [[|t ts]|]. }
    rewrite (collate_forEach_untagged api _ [] Hall).
    destruct (operations api) as [|e ops]; [reflexivity|].
    simpl. unfold append at 2. simpl. now rewrite untagged_fold.
Qed.

Lemma tags_array_absent_samples :
  ((existsb declaresTag (operations tagsArrayAbsent) = true ->
    collateTags tagsArrayAbsent = inl (TypeError "find")) /\
   (existsb declaresTag (operations tagsArrayAbsent) = false ->
    collateTags tagsArrayAbsent =
    inr (match operations tagsArrayAbsent with
         | [] => []
         | _ :: _ => [(Some untaggedTag, operations tagsArrayAbsent)]
         end))) /\
  ((existsb declaresTag (operations untaggedOnly) = true ->
    collateTags untaggedOnly = inl (TypeError "find")) /\
   (existsb declaresTag (operations untaggedOnly) = false ->
    collateTags untaggedOnly =
    inr (match operations untaggedOnly with
         | [] => []
         | _ :: _ => [(Some untaggedTag, operations untaggedOnly)]
         end))).
Proof.
  split.
  - apply (tags_array_absent tagsArrayAbsent); reflexivity.
  - apply (tags_array_absent untaggedOnly); reflexivity.
Defined.

(** * Further properties of the pages *)

Lemma hasKey_undefined (m : TagMap) :
  hasKey None (keys m) = true -> exists endpoints, In (None, endpoints) m.
Proof.
  unfold hasKey, keys. rewrite existsb_exists. intros (k & Hk & Heq).
  destruct k as [r|]; [discriminate|].
  apply in_map_iff in Hk as ([k es] & Hfst & Hin). simpl in Hfst. subst k. eauto.
Qed.

(** X5. [makePagesForTagGroups] throws the [TypeError] of reading [name]
    exactly when the grouping holds the key [undefined]; otherwise it
    returns one page per entry, in the order of the entries, each the page
    of its entry and stored under the tag's name followed by [.md]. *)
Theorem pages_or_TypeError :
  forall tagMap : TagMap,
    (hasKey None (keys tagMap) = true ->
     makePagesForTagGroups tagMap = inl (TypeError "name")) /\
    (hasKey None (keys tagMap) = false ->
     exists pages,
       makePagesForTagGroups tagMap = inr pages /\
       List.length pages = List.length tagMap /\
       Forall2 (fun entry page =>
                  createTagPage (option_map TagRef.target (fst entry)) (snd entry) =
                  inr page) tagMap pages /\
       map GitBookFile.path pages = map keyPath (keys tagMap)).
Proof.
  intros tagMap. split.
  - intros H. destruct (hasKey_undefined _ H) as (es & Hin).
    now apply (makePages_undefined tagMap es).
  - intros H. destruct (makePages_returns tagMap) as (pages & Hpages).
    { intros k Hin ->. pose proof (hasKey_false None None _ H Hin). discriminate. }
    exists pages. split; [exact Hpages|].
    pose proof (makePages_paths _ _ Hpages) as H2.
    split; [symmetry; now apply (Forall2_length H2)|].
    split; [|now apply pages_paths].
    clear -H2. induction H2 as [|[k es] page m pages (r & Hr & Hp) _ IH];
      constructor; [|exact IH].
    simpl in *. now subst k.
Qed.

(** * The outcome of a run *)



(** * What the archive holds *)

Section ArchiveReads.
Variable now : nat -> Z.

Lemma read_tick (t : string) (zip : JSZip.t) :
  JSZip.read t {| JSZip.files := JSZip.files zip; JSZip.reads := S (JSZip.reads zip) |} =
  JSZip.read t zip.
Proof. reflexivity. Qed.

Lemma read_set (t name : string) (o : JSZip.ZipObject) (zip : JSZip.t) (n : nat) :
  JSZip.read t {| JSZip.files := map_set String.eqb name o (JSZip.files zip);
                  JSZip.reads := n |} =
  if String.eqb name t
  then (if JSZip.dir o then None else Some (JSZip.data o))
  else JSZip.read t zip.
Proof.
  unfold JSZip.read. simpl. destruct (String.eqb name t) eqn:E.
  - apply String.eqb_eq in E. subst t.
    now rewrite (map_get_set_same String.eqb String.eqb_refl).
  - now rewrite (map_get_set_other String.eqb String.eqb_sym string_eqb_trans _ _ _ _ E).
Qed.

(** Adding a folder that is not there yet changes no file. *)
Lemma fileAdd_read_dir (fuel : nat) (name data t : string) (zip : JSZip.t) :
  map_get String.eqb (entryName true name) (JSZip.files zip) = None ->
  JSZip.read t (JSZip.fileAdd now fuel name data true zip) = JSZip.read t zip.
Proof.
  revert name data zip. induction fuel as [|fuel IH]; intros name data zip Habsent;
    rewrite fileAdd_unfold; cbv zeta; rewrite read_set; cbn [JSZip.dir];
    (destruct (String.eqb (entryName true name) t) eqn:E;
     [apply String.eqb_eq in E; subst t; unfold JSZip.read; now rewrite Habsent|]).
  - destruct (JSZip.parentFolder (entryName true name)); [reflexivity|].
    now destruct (map_get String.eqb (JSZip.forceTrailingSlash _) _).
  - destruct (JSZip.parentFolder (entryName true name)) as [|c p]; [reflexivity|].
    destruct (map_get String.eqb (JSZip.forceTrailingSlash (String c p)) _) eqn:Ep;
      [reflexivity|].
    rewrite IH; [reflexivity|].
    unfold entryName. rewrite forceTrailingSlash_fixed. exact Ep.
Qed.

(** Adding a file changes what is read under its name and nothing else. *)
Lemma fileAdd_read_file (fuel : nat) (name data t : string) (zip : JSZip.t) :
  JSZip.read t (JSZip.fileAdd now fuel name data false zip) =
  if String.eqb name t then Some data else JSZip.read t zip.
Proof.
  rewrite fileAdd_unfold. cbv zeta. rewrite read_set. cbn [JSZip.dir JSZip.data entryName].
  destruct (String.eqb name t); [reflexivity|].
  destruct (JSZip.parentFolder name) as [|c p]; [reflexivity|].
  destruct (map_get String.eqb (JSZip.forceTrailingSlash (String c p)) _) eqn:Ep;
    [reflexivity|].
  destruct fuel as [|fuel]; [reflexivity|].
  rewrite fileAdd_read_dir; [reflexivity|].
  unfold entryName. rewrite forceTrailingSlash_fixed. exact Ep.
Qed.

Lemma folder_read (root name t : string) (zip : JSZip.t) :
  JSZip.read t (snd (JSZip.folder now root name zip)) = JSZip.read t zip.
Proof.
  unfold JSZip.folder, JSZip.folderAdd.
  destruct (map_get String.eqb (JSZip.forceTrailingSlash (root ++ name)) (JSZip.files zip))
    eqn:E; [reflexivity|].
  cbn [snd]. apply fileAdd_read_dir.
  unfold entryName. rewrite forceTrailingSlash_fixed. exact E.
Qed.

Lemma lastWithPath_from (t : string) (gitBookFiles : list GitBookFile.t)
    (found : option string) :
  fold_left
    (fun found f => if String.eqb (GitBookFile.path f) t
                    then Some (GitBookFile.contents f) else found)
    gitBookFiles found =
  match lastWithPath t gitBookFiles with
  | Some contents => Some contents
  | None => found
  end.
Proof.
  unfold lastWithPath. revert found.
  induction gitBookFiles as [|f fs IH]; intros found; simpl; [reflexivity|].
  rewrite IH. rewrite (IH (if String.eqb (GitBookFile.path f) t then _ else None)).
  destruct (fold_left _ fs None); [reflexivity|].
  now destruct (String.eqb (GitBookFile.path f) t).
Qed.

Lemma pages_read (t : string) (gitBookFiles : list GitBookFile.t) (zip : JSZip.t) :
  JSZip.read t
    (fold_left (fun bundle f =>
                  JSZip.file now EmptyString (GitBookFile.path f)
                             (GitBookFile.contents f) bundle) gitBookFiles zip) =
  match lastWithPath t gitBookFiles with
  | Some contents => Some contents
  | None => JSZip.read t zip
  end.
Proof.
  revert zip. induction gitBookFiles as [|f fs IH]; intros zip; [reflexivity|].
  cbn [fold_left]. rewrite IH. unfold lastWithPath at 2. cbn [fold_left].
  rewrite lastWithPath_from.
  destruct (lastWithPath t fs); [reflexivity|].
  unfold JSZip.file. rewrite fileAdd_read_file. cbn [String.append].
  now destruct (String.eqb (GitBookFile.path f) t).
Qed.

Lemma createZipBundle_read (gitBookFiles : list GitBookFile.t) (spec : string)
    (parsedSpec : Document.t) (t : string) :
  JSZip.read t (createZipBundle now gitBookFiles spec parsedSpec) =
  if String.eqb specEntry t then Some spec
  else match lastWithPath t gitBookFiles with
       | Some contents => Some contents
       | None =>
           if String.eqb "README.md" t then Some (createReadmeFile parsedSpec)
           else if String.eqb "SUMMARY.md" t then Some (createSummaryFile gitBookFiles)
           else None
       end.
Proof.
  unfold createZipBundle.
  match goal with
  | |- context [JSZip.folder now EmptyString ".gitbook" ?z] =>
      pose proof (folder_root now EmptyString ".gitbook" z) as Hroot;
      pose proof (folder_read EmptyString ".gitbook" t z) as Hread;
      destruct (JSZip.folder now EmptyString ".gitbook" z) as [root bundle]
  end.
  cbn [fst snd] in Hroot, Hread. simpl in Hroot. subst root.
  unfold JSZip.file at 1. rewrite fileAdd_read_file.
  change (String.eqb (_ ++ "openapi.yaml") t) with (String.eqb specEntry t).
  destruct (String.eqb specEntry t); [reflexivity|].
  rewrite Hread, pages_read.
  destruct (lastWithPath t gitBookFiles); [reflexivity|].
  unfold JSZip.file. rewrite !fileAdd_read_file. reflexivity.
Qed.
End ArchiveReads.

(** X8. Every read of the archive.  The spec entry holds the input text;
    any other name that is the path of a page holds the contents of the
    last page with that path (a later page replaces an earlier one, and
    replaces the summary or the readme if it has their name); failing
    that, [README.md] holds the readme and [SUMMARY.md] the summary; and
    no other name holds a file. *)
Theorem archive_reads :
  forall (now : nat -> Z) (gitBookFiles : list GitBookFile.t) (spec : string)
         (parsedSpec : Document.t) (name : string),
    JSZip.read name (createZipBundle now gitBookFiles spec parsedSpec) =
    if String.eqb name specEntry then Some spec
    else match lastWithPath name gitBookFiles with
         | Some contents => Some contents
         | None =>
             if String.eqb name "SUMMARY.md" then Some (createSummaryFile gitBookFiles)
             else if String.eqb name "README.md" then Some ("# " ++ Document.title parsedSpec)
             else None
         end.
Proof.
  intros now gitBookFiles spec parsedSpec name.
  rewrite createZipBundle_read.
  rewrite (String.eqb_sym specEntry), (String.eqb_sym "README.md"),
    (String.eqb_sym "SUMMARY.md").
  destruct (String.eqb name specEntry); [reflexivity|].
  destruct (lastWithPath name gitBookFiles); [reflexivity|].
  destruct (String.eqb name "README.md") eqn:E; [|reflexivity].
  apply String.eqb_eq in E. subst name. reflexivity.
Qed.

(** ** The pages of a run in the archive *)

Lemma keys_origin (api : Document.t) (tagMap : TagMap) (k : TagKey) :
  collateTags api = inr tagMap -> In k (keys tagMap) ->
  k = Some untaggedTag \/ exists tagName, k = find 0 (declaredTags api) tagName.
Proof.
  intros Hrun Hin. rewrite (collateTags_keys _ _ Hrun) in Hin.
  apply firstOccurrences_In, insertions_keys in Hin as (e & _ & Hk).
  unfold keysOf in Hk.
  destruct (OperationObject.tags (Endpoint.operationObject e)) as [[|t ts]|].
  - destruct Hk as [<-|[]]. now left.
  - apply in_map_iff in Hk as (n & <- & _). eauto.
  - destruct Hk.
Qed.

Lemma no_such_path (t : string) (gitBookFiles : list GitBookFile.t)
    (found : option string) :
  Forall (fun f => GitBookFile.path f <> t) gitBookFiles ->
  fold_left
    (fun found f => if String.eqb (GitBookFile.path f) t
                    then Some (GitBookFile.contents f) else found)
    gitBookFiles found = found.
Proof.
  revert found. induction gitBookFiles as [|f fs IH]; intros found Hall; simpl;
    [reflexivity|].
  inversion Hall as [|? ? Hf Hfs]; subst.
  apply String.eqb_neq in Hf. rewrite Hf. now apply IH.
Qed.

Lemma lastWithPath_none (t : string) (gitBookFiles : list GitBookFile.t) :
  Forall (fun f => GitBookFile.path f <> t) gitBookFiles ->
  lastWithPath t gitBookFiles = None.
Proof. apply no_such_path. Qed.

Lemma lastWithPath_unique (gitBookFiles : list GitBookFile.t) (f : GitBookFile.t) :
  NoDup (map GitBookFile.path gitBookFiles) ->
  In f gitBookFiles ->
  lastWithPath (GitBookFile.path f) gitBookFiles = Some (GitBookFile.contents f).
Proof.
  induction gitBookFiles as [|g fs IH]; intros Hnd Hin; [destruct Hin|].
  simpl in Hnd. inversion Hnd as [|? ? Hnotin Hnd']; subst.
  unfold lastWithPath. cbn [fold_left]. destruct Hin as [->|Hin].
  - rewrite String.eqb_refl. apply no_such_path.
    apply Forall_forall. intros h Hh E. apply Hnotin. rewrite <- E. now apply in_map.
  - rewrite lastWithPath_from. now rewrite (IH Hnd' Hin).
Qed.

Lemma page_keys (m : TagMap) (pages : list GitBookFile.t) (k : TagKey) :
  makePagesForTagGroups m = inr pages -> In k (keys m) -> exists r, k = Some r.
Proof.
  intros Hpages Hin. apply makePages_paths in Hpages.
  induction Hpages as [|entry page m pages (r & Hr & _) _ IH]; [destruct Hin|].
  destruct Hin as [<-|Hin]; eauto.
Qed.

Lemma page_not_named (api : Document.t) (tagMap : TagMap) (pages : list GitBookFile.t)
    (reserved : string) :
  collateTags api = inr tagMap ->
  makePagesForTagGroups tagMap = inr pages ->
  reserved <> TagObject.name (TagRef.target untaggedTag) ->
  (forall tag, In tag (declaredTags api) -> TagObject.name tag <> reserved) ->
  Forall (fun f => GitBookFile.path f <> reserved ++ ".md") pages.
Proof.
  intros Hrun Hpages Hu Hdecl.
  assert (Hpaths : forall p, In p (map GitBookFile.path pages) -> p <> reserved ++ ".md").
  { rewrite (pages_paths _ _ Hpages). intros p Hp E.
    apply in_map_iff in Hp as (k & <- & Hk).
    destruct (keys_origin api tagMap k Hrun Hk) as [->|(n & ->)].
    - cbn [keyPath] in E. apply append_cancel_r in E. apply Hu. now symmetry.
    - destruct (find 0 (declaredTags api) n) as [r|] eqn:Hf;
        [|destruct reserved; discriminate].
      cbn [keyPath] in E. apply append_cancel_r in E.
      apply (Hdecl (TagRef.target r)); [|exact E].
      now apply find_declared in Hf. }
  apply Forall_forall. intros f Hf. apply Hpaths. now apply in_map.
Qed.

(** X9. In the archive of a document that declares no tag named [README]
    or [SUMMARY], [README.md] holds [# ] followed by the title and
    [SUMMARY.md] holds the summary of the pages. *)
Theorem readme_and_summary_entries (api : Document.t) (tagMap : TagMap)
    (pages : list GitBookFile.t) :
  collateTags api = inr tagMap ->
  makePagesForTagGroups tagMap = inr pages ->
  (forall tag, In tag (declaredTags api) ->
               TagObject.name tag <> "README" /\ TagObject.name tag <> "SUMMARY") ->
  forall (now : nat -> Z) (raw : string),
    JSZip.read "README.md" (createZipBundle now pages raw api) =
      Some ("# " ++ Document.title api) /\
    JSZip.read "SUMMARY.md" (createZipBundle now pages raw api) =
      Some (createSummaryFile pages).
Proof.
  intros Hrun Hpages Hnames now raw.
  rewrite !createZipBundle_read. split.
  - rewrite lastWithPath_none; [reflexivity|].
    apply (page_not_named api tagMap pages "README" Hrun Hpages); [discriminate|].
    intros tag Htag. now apply Hnames.
  - rewrite lastWithPath_none; [reflexivity|].
    apply (page_not_named api tagMap pages "SUMMARY" Hrun Hpages); [discriminate|].
    intros tag Htag. now apply Hnames.
Qed.

Lemma petStore_no_reserved_names (reserved : string) :
  reserved <> "pets" ->
  forall tag, In tag (declaredTags petStore) -> TagObject.name tag <> reserved.
Proof.
  intros Hne tag [<-|[]] E. apply Hne. symmetry. exact E.
Defined.

Lemma readme_and_summary_entries_petStore :
  exists tagMap pages,
    collateTags petStore = inr tagMap /\
    makePagesForTagGroups tagMap = inr pages /\
    forall (now : nat -> Z) (raw : string),
      JSZip.read "README.md" (createZipBundle now pages raw petStore) =
        Some ("# " ++ Document.title petStore) /\
      JSZip.read "SUMMARY.md" (createZipBundle now pages raw petStore) =
        Some (createSummaryFile pages).
Proof.
  eexists. eexists. split; [reflexivity|]. split; [reflexivity|].
  eapply (readme_and_summary_entries petStore); [reflexivity|reflexivity|].
  intros tag Htag. split.
  - apply (petStore_no_reserved_names "README"); [discriminate|exact Htag].
  - apply (petStore_no_reserved_names "SUMMARY"); [discriminate|exact Htag].
Defined.

Lemma keyPath_same_key (api : Document.t) (k1 k2 : TagKey) :
  (forall tag, In tag (declaredTags api) ->
               TagObject.name tag <> TagObject.name (TagRef.target untaggedTag)) ->
  (k1 = Some untaggedTag \/ exists n, k1 = find 0 (declaredTags api) n) ->
  (k2 = Some untaggedTag \/ exists n, k2 = find 0 (declaredTags api) n) ->
  (exists r, k1 = Some r) -> (exists r, k2 = Some r) ->
  keyPath k1 = keyPath k2 -> key_eqb k1 k2 = true.
Proof.
  intros Hdecl H1 H2 (r1 & E1) (r2 & E2) Hpath. subst k1 k2. simpl in Hpath.
  apply append_cancel_r in Hpath.
  destruct H1 as [[= ->]|(n1 & Hf1)], H2 as [[= ->]|(n2 & Hf2)].
  - reflexivity.
  - symmetry in Hf2. exfalso. apply (Hdecl (TagRef.target r2)); [|now symmetry].
    now apply find_declared in Hf2.
  - symmetry in Hf1. exfalso. apply (Hdecl (TagRef.target r1)); [|exact Hpath].
    now apply find_declared in Hf1.
  - symmetry in Hf1, Hf2.
    pose proof (find_addr _ _ _ _ Hf1) as (_ & _ & Hn1).
    pose proof (find_addr _ _ _ _ Hf2) as (_ & _ & Hn2).
    assert (Hn : n1 = n2) by congruence.
    assert (E : Some r1 = Some r2) by congruence.
    injection E as ->. apply key_eqb_refl.
Qed.

Lemma unique_paths (ks : list TagKey) :
  uniqueKeys ks = true ->
  (forall k1 k2, In k1 ks -> In k2 ks -> keyPath k1 = keyPath k2 -> key_eqb k1 k2 = true) ->
  NoDup (map keyPath ks).
Proof.
  induction ks as [|k ks IH]; intros Hu Hinj; simpl; [constructor|].
  simpl in Hu. apply andb_true_iff in Hu as [Hk Hu]. apply negb_true_iff in Hk.
  constructor.
  - rewrite in_map_iff. intros (k' & Hp & Hin).
    specialize (Hinj k k' (or_introl eq_refl) (or_intror Hin)).
    symmetry in Hp. specialize (Hinj Hp).
    rewrite (hasKey_false k k' ks Hk Hin) in Hinj. discriminate.
  - apply IH; [exact Hu|]. intros k1 k2 H1 H2. apply Hinj; now right.
Qed.

Lemma grouping_unique_keys (api : Document.t) (tagMap : TagMap) :
  collateTags api = inr tagMap -> uniqueKeys (keys tagMap) = true.
Proof.
  intros H. apply collateTags_inversion in H as [_ ->].
  now apply uniqueKeys_applyInsertions.
Qed.

(** X11. Unless the document declares a tag with the reserved name of the
    untagged group, no two pages of a run have the same path, and the
    archive holds every page under its path with its contents. *)
Theorem every_page_is_stored (api : Document.t) (tagMap : TagMap)
    (pages : list GitBookFile.t) :
  collateTags api = inr tagMap ->
  makePagesForTagGroups tagMap = inr pages ->
  (forall tag, In tag (declaredTags api) ->
               TagObject.name tag <> TagObject.name (TagRef.target untaggedTag)) ->
  NoDup (map GitBookFile.path pages) /\
  forall (now : nat -> Z) (raw : string) (page : GitBookFile.t),
    In page pages ->
    JSZip.read (GitBookFile.path page) (createZipBundle now pages raw api) =
    Some (GitBookFile.contents page).
Proof.
  intros Hrun Hpages Hdecl.
  assert (Hnd : NoDup (map GitBookFile.path pages)).
  { rewrite (pages_paths _ _ Hpages). apply unique_paths.
    - apply (grouping_unique_keys api tagMap Hrun).
    - intros k1 k2 H1 H2. apply (keyPath_same_key api); auto.
      + now apply (keys_origin api tagMap).
      + now apply (keys_origin api tagMap).
      + now apply (page_keys tagMap pages).
      + now apply (page_keys tagMap pages). }
  split; [exact Hnd|]. intros now raw page Hin.
  rewrite createZipBundle_read, (lastWithPath_unique pages page Hnd Hin).
  destruct (String.eqb specEntry (GitBookFile.path page)) eqn:E; [|reflexivity].
  apply String.eqb_eq in E.
  assert (Hd : lastChar (GitBookFile.path page) = Some "d"%char).
  { pose proof (makePages_paths _ _ Hpages) as H2. clear -H2 Hin.
    induction H2 as [|entry p m ps (r & _ & Hp) _ IH]; [destruct Hin|].
    destruct Hin as [<-|Hin]; [|now apply IH].
    now apply page_path_lastChar in Hp as [_ ?]. }
  rewrite <- E in Hd. discriminate.
Qed.

Lemma every_page_is_stored_petsOnly :
  exists tagMap pages,
    collateTags petsOnly = inr tagMap /\
    makePagesForTagGroups tagMap = inr pages /\
    NoDup (map GitBookFile.path pages) /\
    forall (now : nat -> Z) (raw : string) (page : GitBookFile.t),
      In page pages ->
      JSZip.read (GitBookFile.path page) (createZipBundle now pages raw petsOnly) =
      Some (GitBookFile.contents page).
Proof.
  eexists. eexists. split; [reflexivity|]. split; [reflexivity|].
  eapply (every_page_is_stored petsOnly); [reflexivity|reflexivity|].
  intros tag [<-|[]]. discriminate.
Defined.

(** * The text of a page *)

Lemma append_empty_r (s : string) : s ++ EmptyString = s.
Proof. induction s as [|c s IH]; simpl; [reflexivity|now rewrite IH]. Qed.

Lemma trimEnd_ends (s : string) :
  trimEnd s = EmptyString \/ endsBlack (trimEnd s) = true.
Proof.
  induction s as [|c s IH]; simpl; [now left|].
  destruct (trimEnd s) as [|c' r] eqn:E.
  - destruct (isWhiteSpace c) eqn:Ec; [now left|]. right. simpl. now rewrite Ec.
  - right. destruct IH as [IH|IH]; [discriminate|exact IH].
Qed.

Lemma occurs_app (needle a b : string) : occurs needle (a ++ needle ++ b) = true.
Proof.
  induction a as [|c a IH].
  - pose proof (prefix_app needle b) as H.
    change (EmptyString ++ needle ++ b) with (needle ++ b).
    destruct (needle ++ b) as [|c r].
    + change (occurs needle EmptyString) with (prefix needle EmptyString || false).
      now rewrite H.
    + change (occurs needle (String c r)) with
        (prefix needle (String c r) || occurs needle r).
      now rewrite H.
  - change (occurs needle (String c a ++ needle ++ b)) with
      (prefix needle (String c (a ++ needle ++ b)) || occurs needle (a ++ needle ++ b)).
    rewrite IH. apply orb_true_r.
Qed.

Lemma join_split {A : Type} (f : A -> string) (sep : string) (x : A) (xs : list A) :
  In x xs -> exists a b, join sep (map f xs) = a ++ f x ++ b.
Proof.
  induction xs as [|y xs IH]; [intros []|].
  intros [->|Hin].
  - exists EmptyString. destruct xs as [|z xs].
    + exists EmptyString. simpl. now rewrite append_empty_r.
    + eexists. reflexivity.
  - destruct (IH Hin) as (a & b & E). destruct xs as [|z xs]; [destruct Hin|].
    exists (f y ++ sep ++ a), b.
    change (join sep (map f (y :: z :: xs))) with (f y ++ sep ++ join sep (map f (z :: xs))).
    rewrite E. now rewrite !append_assoc.
Qed.

Lemma block_first_line (endpoint : Endpoint.t) :
  createGitBookOpenAPITag endpoint = nl ++ swaggerLine endpoint ++ blockRest.
Proof.
  unfold createGitBookOpenAPITag, swaggerLine, blockRest. now rewrite !append_assoc.
Qed.

Lemma swaggerLine_endsBlack (endpoint : Endpoint.t) :
  endsBlack (swaggerLine endpoint) = true.
Proof. unfold swaggerLine. repeat (apply endsBlack_app). reflexivity. Qed.

(** X6. The text of a page, for every tag and every list of endpoints:
    [# ] and the name, a blank line, the interpolated description, a blank
    line, the interpolated external-docs expression, then the blocks.  It
    starts with the heading and its last character is never white space. *)
Theorem page_text :
  forall (tag : TagObject.t) (endpoints : list Endpoint.t),
    exists page,
      createTagPage (Some tag) endpoints = inr page /\
      GitBookFile.path page = TagObject.name tag ++ ".md" /\
      GitBookFile.contents page =
        "# " ++ TagObject.name tag ++ nl ++ nl ++
        interpolate (TagObject.description tag) ++ nl ++ nl ++
        externalDocsLine (TagObject.externalDocs tag) ++
        pageBlocks endpoints /\
      prefix ("# " ++ TagObject.name tag) (GitBookFile.contents page) = true /\
      endsBlack (GitBookFile.contents page) = true.
Proof.
  intros tag endpoints. eexists. split; [apply createTagPage_contents|].
  cbn [GitBookFile.path GitBookFile.contents].
  split; [reflexivity|]. split; [reflexivity|]. split.
  - rewrite <- (append_assoc "# " (TagObject.name tag)). apply prefix_app.
  - rewrite <- !append_assoc.
    destruct (trimEnd_ends (nl ++ nl ++
                join (nl ++ nl) (map createGitBookOpenAPITag endpoints) ++ nl ++ "  "))
      as [E|E]; unfold pageBlocks.
    + rewrite E, append_empty_r. rewrite !append_assoc.
      repeat (apply endsBlack_app). apply externalDocsLine_endsBlack.
    + now apply endsBlack_app.
Qed.

(** X7. The page of a group holds the block of every endpoint of the
    group: the line naming the endpoint's path and method is in the
    text. *)
Theorem page_holds_every_block (tag : TagObject.t) (endpoints : list Endpoint.t)
    (e : Endpoint.t) :
  In e endpoints ->
  exists page,
    createTagPage (Some tag) endpoints = inr page /\
    occurs (swaggerLine e) (GitBookFile.contents page) = true.
Proof.
  intros Hin. eexists. split; [apply createTagPage_contents|].
  cbn [GitBookFile.contents].
  destruct (join_split createGitBookOpenAPITag (nl ++ nl) e endpoints Hin) as (a & b & E).
  assert (Hb : pageBlocks endpoints =
               (nl ++ nl ++ a ++ nl) ++ swaggerLine e ++
               trimEnd ((blockRest ++ b) ++ nl ++ "  ")).
  { unfold pageBlocks. rewrite E, block_first_line.
    transitivity (trimEnd (((nl ++ nl ++ a ++ nl) ++ swaggerLine e) ++
                           ((blockRest ++ b) ++ nl ++ "  "))).
    - f_equal. now rewrite !append_assoc.
    - rewrite trimEnd_after_black by (apply endsBlack_app, swaggerLine_endsBlack).
      now rewrite append_assoc. }
  rewrite Hb. rewrite <- !append_assoc.
  rewrite (append_assoc _ (swaggerLine e) _). apply occurs_app.
Qed.

Lemma page_holds_every_block_pets :
  exists page,
    createTagPage (Some petsTag) [getPets; postOwners] = inr page /\
    occurs (swaggerLine postOwners) (GitBookFile.contents page) = true.
Proof.
  apply (page_holds_every_block petsTag [getPets; postOwners] postOwners).
  simpl. right. left. reflexivity.
Defined.


(** * The upload *)

(** ** File names *)

Lemma substring_all (s : string) : substring 0 (String.length s) s = s.
Proof. induction s as [|c s IH]; simpl; [reflexivity|now rewrite IH]. Qed.

Lemma substring_skip (a b : string) (n : nat) :
  substring (String.length a) n (a ++ b) = substring 0 n b.
Proof. induction a as [|c a IH]; simpl; [reflexivity|exact IH]. Qed.

Lemma substring_split (k : nat) (s : string) :
  k <= String.length s ->
  s = substring 0 k s ++ substring k (String.length s - k) s.
Proof.
  revert k. induction s as [|c s IH]; intros [|k] Hk; simpl in *.
  - reflexivity.
  - lia.
  - now rewrite substring_all.
  - rewrite <- IH by lia. reflexivity.
Qed.

Lemma endsWith_spec (suffix s : string) :
  endsWith suffix s = true <-> exists base, s = base ++ suffix.
Proof.
  unfold endsWith. rewrite andb_true_iff, Nat.leb_le, String.eqb_eq. split.
  - intros [Hlen Hsub]. exists (substring 0 (String.length s - String.length suffix) s).
    rewrite <- Hsub at 2.
    rewrite (substring_split (String.length s - String.length suffix) s) at 1 by lia.
    do 2 f_equal. lia.
  - intros (base & ->). rewrite append_length. split; [lia|].
    replace (String.length base + String.length suffix - String.length suffix)
      with (String.length base) by lia.
    rewrite substring_skip. apply substring_all.
Qed.

Lemma append_same_suffix_length (a b c d : string) :
  a ++ b = c ++ d -> String.length b = String.length d -> b = d.
Proof.
  intros H Hlen. apply (append_same_length a b c d H).
  apply (f_equal String.length) in H. rewrite !append_length in H. lia.
Qed.

(** A name that ends with one extension does not end with a suffix whose
    last characters, as many, are others. *)
Lemma endsWith_other (front back ext base : string) :
  String.length back = String.length ext -> back <> ext ->
  endsWith (front ++ back) (base ++ ext) = false.
Proof.
  intros Hlen Hne. destruct (endsWith (front ++ back) (base ++ ext)) eqn:E; [|reflexivity].
  apply endsWith_spec in E as (b & E). rewrite <- append_assoc in E.
  apply append_same_suffix_length in E; [|now symmetry]. now subst.
Qed.

(** X12. The names [validateFileIsJsonOrYaml] accepts are exactly those
    that end with [.json] or with [.yaml], compared as they are written;
    it throws only on [undefined]. *)
Theorem accepted_file_names :
  forall file : File.t,
    exists answer,
      validateFileIsJsonOrYaml (Some file) = inr answer /\
      (answer = true <->
       exists base, File.name file = base ++ ".json" \/ File.name file = base ++ ".yaml").
Proof.
  intros file. eexists. split; [reflexivity|].
  rewrite orb_true_iff, !endsWith_spec. split.
  - intros [(base & E)|(base & E)]; exists base; auto.
  - intros (base & [E|E]); [left|right]; eauto.
Qed.

Lemma refused_when_not_valid (parse : string -> result Document.t) (now : nat -> Z)
    (file : File.t) (st : Home.State) :
  endsWith ".json" (File.name file) || endsWith ".yaml" (File.name file) = false ->
  Home.handleFileUpload parse now (Some file) st =
  inr {| Home.error := Some refusal; Home.zipUrl := Home.zipUrl st |}.
Proof.
  intros H. unfold Home.handleFileUpload, validateFileIsJsonOrYaml. cbn [bind ret].
  now rewrite H.
Qed.

(** X13. A file named with the extension [.yml], or with [.JSON] or
    [.YAML] in capitals, is refused whatever it holds: the handler sets the
    error message, leaves the download link as it was, and neither decodes
    nor parses the file. *)
Theorem yml_is_refused :
  forall (parse : string -> result Document.t) (now : nat -> Z) (base bytes : string)
         (st : Home.State) (ext : string),
    In ext [".yml"; ".JSON"; ".YAML"] ->
    Home.handleFileUpload parse now
      (Some {| File.name := base ++ ext; File.bytes := bytes |}) st =
    inr {| Home.error := Some refusal; Home.zipUrl := Home.zipUrl st |}.
Proof.
  intros parse now base bytes st ext Hext. apply refused_when_not_valid.
  cbn [File.name]. apply orb_false_iff.
  destruct Hext as [<-|[<-|[<-|[]]]].
  - split.
    + apply (endsWith_other "." "json"); [reflexivity|discriminate].
    + apply (endsWith_other "." "yaml"); [reflexivity|discriminate].
  - split.
    + apply (endsWith_other EmptyString ".json"); [reflexivity|discriminate].
    + apply (endsWith_other EmptyString ".yaml"); [reflexivity|discriminate].
  - split.
    + apply (endsWith_other EmptyString ".json"); [reflexivity|discriminate].
    + apply (endsWith_other EmptyString ".yaml"); [reflexivity|discriminate].
Qed.

Lemma yml_is_refused_petStore :
  Home.handleFileUpload (fun _ => ret petStore) tickingClock
    (Some {| File.name := "petstore" ++ ".yml"; File.bytes := "openapi: 3.0.0" |})
    Home.initial =
  inr {| Home.error := Some refusal; Home.zipUrl := None |}.
Proof.
  apply (yml_is_refused (fun _ => ret petStore) tickingClock "petstore" "openapi: 3.0.0"
           Home.initial ".yml").
  simpl. left. reflexivity.
Defined.

(** ** The cells of the page *)

Lemma upload_step (parse : string -> result Document.t) (now : nat -> Z)
    (st : Home.State) (file : option File.t) :
  let st' := Home.upload parse now st file in
  (Home.error st' = Home.error st \/ Home.error st' = Some refusal) /\
  (Home.zipUrl st' = Home.zipUrl st \/ exists zip, Home.zipUrl st' = Some zip) /\
  (Home.error st' = Home.error st \/ Home.zipUrl st' = Home.zipUrl st).
Proof.
  unfold Home.upload, Home.handleFileUpload.
  destruct (validateFileIsJsonOrYaml file) as [e|[|]]; cbn [bind negb].
  - repeat split; auto.
  - destruct file as [f|]; [|repeat split; auto].
    destruct (handleFileUpload parse now (ab2str (File.bytes f))) as [e|zip];
      cbn [bind ret Home.error Home.zipUrl]; repeat split; eauto.
  - cbn [ret Home.error Home.zipUrl]. repeat split; auto.
Qed.

(** X14. Over any sequence of uploads the handler never clears a cell: an
    error message once shown stays (a later successful upload does not
    remove it), a download link once shown stays or is replaced by a newer
    one, and the only message ever set is the refusal. *)
Theorem cells_are_never_cleared :
  forall (parse : string -> result Document.t) (now : nat -> Z)
         (files : list (option File.t)) (st : Home.State),
    let st' := fold_left (Home.upload parse now) files st in
    (Home.error st' = Home.error st \/ Home.error st' = Some refusal) /\
    (Home.error st <> None -> Home.error st' <> None) /\
    (Home.zipUrl st <> None -> Home.zipUrl st' <> None).
Proof.
  intros parse now files. induction files as [|file files IH]; intros st; cbn zeta.
  - cbn [fold_left]. repeat split; auto.
  - cbn [fold_left].
    destruct (IH (Home.upload parse now st file)) as (He & Hkeep & Hzip).
    destruct (upload_step parse now st file) as (He1 & Hz1 & _).
    repeat split.
    + destruct He as [-> | ->]; auto.
    + intros Hst. apply Hkeep. destruct He1 as [-> | ->]; [exact Hst|discriminate].
    + intros Hst. apply Hzip. destruct Hz1 as [-> | (zip & ->)]; [exact Hst|discriminate].
Qed.

(** ** Decoding *)

Lemma decode_wellFormed_app (n : nat) (s x : string) :
  String.length s <= n -> wellFormed s = true ->
  Utf8.decode Utf8.initial (s ++ x) = s ++ Utf8.decode Utf8.initial x.
Proof.
  revert s. induction n as [|n IH]; intros s Hlen Hwf.
  - destruct s; [reflexivity|simpl in Hlen; lia].
  - destruct s as [|a r1]; [reflexivity|].
    change (String a r1 ++ x) with (String a (r1 ++ x)).
    cbn [wellFormed] in Hwf. cbv zeta in Hwf.
    cbn [Utf8.decode Utf8.initial Utf8.needed Nat.eqb]. unfold Utf8.lead.
    simpl in Hlen.
    destruct (Utf8.between 0 127 (nat_of_ascii a)) eqn:H1.
    { cbn [String.append]. rewrite IH; [reflexivity|lia|exact Hwf]. }
    destruct r1 as [|b r2]; [discriminate|]. simpl in Hlen.
    change (String b r2 ++ x) with (String b (r2 ++ x)).
    destruct (Utf8.between 194 223 (nat_of_ascii a)) eqn:H2.
    { apply andb_true_iff in Hwf as [Hy Hwf].
      cbn [String.append Utf8.decode Utf8.needed Utf8.lower Utf8.upper Utf8.seen
           Utf8.pending Nat.eqb].
      rewrite Hy. cbn [String.append]. rewrite IH; [reflexivity|lia|exact Hwf]. }
    destruct r2 as [|c r3]; [discriminate|]. simpl in Hlen.
    change (String c r3 ++ x) with (String c (r3 ++ x)).
    destruct (Utf8.between 224 239 (nat_of_ascii a)) eqn:H3.
    { apply andb_true_iff in Hwf as [Hwf Hr]. apply andb_true_iff in Hwf as [Hy Hz].
      cbn [String.append Utf8.decode Utf8.needed Utf8.lower Utf8.upper Utf8.seen
           Utf8.pending Nat.eqb].
      rewrite Hy.
      cbn [String.append Utf8.decode Utf8.needed Utf8.lower Utf8.upper Utf8.seen
           Utf8.pending Nat.eqb].
      rewrite Hz. cbn [String.append]. rewrite IH; [reflexivity|lia|exact Hr]. }
    destruct r3 as [|d r4]; [discriminate|]. simpl in Hlen.
    change (String d r4 ++ x) with (String d (r4 ++ x)).
    apply andb_true_iff in Hwf as [Hwf Hr]. apply andb_true_iff in Hwf as [Hwf Hd].
    apply andb_true_iff in Hwf as [Hwf Hz]. apply andb_true_iff in Hwf as [Hx Hy].
    rewrite Hx.
    cbn [String.append Utf8.decode Utf8.needed Utf8.lower Utf8.upper Utf8.seen
         Utf8.pending Nat.eqb].
    rewrite Hy.
    cbn [String.append Utf8.decode Utf8.needed Utf8.lower Utf8.upper Utf8.seen
         Utf8.pending Nat.eqb].
    rewrite Hz.
    cbn [String.append Utf8.decode Utf8.needed Utf8.lower Utf8.upper Utf8.seen
         Utf8.pending Nat.eqb].
    rewrite Hd. cbn [String.append]. rewrite IH; [reflexivity|lia|exact Hr].
Qed.

Lemma decode_wellFormed_bounded (n : nat) (s : string) :
  String.length s <= n -> wellFormed s = true -> Utf8.decode Utf8.initial s = s.
Proof.
  intros Hlen Hwf. rewrite <- (append_empty_r s) at 1.
  rewrite (decode_wellFormed_app n s EmptyString Hlen Hwf). apply append_empty_r.
Qed.

(** X15. [ab2str] gives back a well-formed UTF-8 text as it is, unless
    the text starts with a byte order mark: a mark in front of the text is
    dropped, so the decoded text is then not the uploaded bytes. *)
Theorem ab2str_wellFormed (text : string) :
  wellFormed text = true ->
  prefix Utf8.byteOrderMark text = false ->
  ab2str text = text /\
  ab2str (Utf8.byteOrderMark ++ text) = text /\
  Utf8.byteOrderMark ++ text <> text.
Proof.
  intros Hwf Hmark. unfold ab2str. split; [|split].
  - unfold Utf8.stripByteOrderMark. rewrite Hmark.
    now apply (decode_wellFormed_bounded (String.length text)).
  - unfold Utf8.stripByteOrderMark.
    rewrite prefix_app. rewrite append_length.
    replace (String.length Utf8.byteOrderMark + String.length text - 3)
      with (String.length text) by (simpl; lia).
    change 3 with (String.length Utf8.byteOrderMark) at 1.
    rewrite substring_skip, substring_all.
    now apply (decode_wellFormed_bounded (String.length text)).
  - intros E. apply (f_equal String.length) in E.
    rewrite append_length in E. simpl in E. lia.
Qed.

Lemma ab2str_wellFormed_accented :
  ab2str accented = accented /\
  ab2str (Utf8.byteOrderMark ++ accented) = accented /\
  Utf8.byteOrderMark ++ accented <> accented.
Proof. apply (ab2str_wellFormed accented); reflexivity. Defined.

(** X16. The whole handler on a good upload.  For a file named [.json] or
    [.yaml] whose bytes are well-formed UTF-8 without a byte order mark
    and parse to a resolvable document, the handler keeps the error cell,
    sets the download link to an archive, and that archive holds the
    uploaded bytes under the spec entry. *)
Theorem upload_is_embedded (parse : string -> result Document.t)
    (now : nat -> Z) (file : File.t) (api : Document.t) (st : Home.State) :
  (exists base, File.name file = base ++ ".json" \/ File.name file = base ++ ".yaml") ->
  wellFormed (File.bytes file) = true ->
  prefix Utf8.byteOrderMark (File.bytes file) = false ->
  parse (File.bytes file) = inr api ->
  resolvable api = true ->
  exists zip,
    Home.handleFileUpload parse now (Some file) st =
      inr {| Home.error := Home.error st; Home.zipUrl := Some zip |} /\
    JSZip.read specEntry zip = Some (File.bytes file).
Proof.
  intros Hname Hwf Hmark Hparse Hres.
  assert (Hvalid : endsWith ".json" (File.name file) || endsWith ".yaml" (File.name file) = true).
  { apply orb_true_iff. rewrite !endsWith_spec.
    destruct Hname as (base & [E|E]); [left|right]; eauto. }
  assert (Hdecode : ab2str (File.bytes file) = File.bytes file).
  { unfold ab2str, Utf8.stripByteOrderMark. rewrite Hmark.
    now apply (decode_wellFormed_bounded (String.length (File.bytes file))). }
  unfold Home.handleFileUpload, validateFileIsJsonOrYaml. cbn [bind ret].
  rewrite Hvalid. cbn [negb]. rewrite Hdecode.
  unfold handleFileUpload. rewrite Hparse. cbn [bind].
  assert (Hok : collatable api = true)
    by (unfold resolvable in Hres; now apply andb_true_iff in Hres as [? _]).
  pose proof (collateTags_returns api Hok) as Hrun. rewrite Hrun. cbn [bind].
  destruct (makePages_returns (applyInsertions (insertions api) [])) as (pages & ->).
  { intros k. now apply (resolvable_keys api _ k). }
  cbn [bind ret]. eexists. split; [reflexivity|apply createZipBundle_spec_entry].
Qed.

Lemma upload_is_embedded_petStore :
  exists zip,
    Home.handleFileUpload (fun _ => ret petStore) tickingClock (Some petStoreFile)
      Home.initial =
      inr {| Home.error := None; Home.zipUrl := Some zip |} /\
    JSZip.read specEntry zip = Some "openapi: 3.0.0".
Proof.
  apply (upload_is_embedded (fun _ => ret petStore) tickingClock petStoreFile
           petStore Home.initial).
  - exists "petstore". right. reflexivity.
  - reflexivity.
  - reflexivity.
  - reflexivity.
  - reflexivity.
Defined.


Lemma lead_of_stray_byte (c : ascii) :
  neverLead c = true -> Utf8.lead c = (Utf8.replacement, Utf8.initial).
Proof.
  unfold neverLead, Utf8.lead, Utf8.between. intros H.
  repeat match goal with
         | |- context [Nat.leb ?a ?b] => destruct (Nat.leb_spec a b); try lia
         | H0 : context [Nat.leb ?a ?b] |- _ => destruct (Nat.leb_spec a b); try lia
         end; simpl in *; try reflexivity; try discriminate.
Qed.

(** X17. A byte that can start no UTF-8 sequence (such as the no-break
    space A0 of a Latin-1 file) is not kept: after a well-formed text [ab2str] writes U+FFFD in its
    place and goes on decoding, so the decoded text is not the upload. *)
Theorem stray_byte_is_replaced (text rest : string) (c : ascii) :
  wellFormed text = true ->
  neverLead c = true ->
  prefix Utf8.byteOrderMark (text ++ String c rest) = false ->
  ab2str (text ++ String c rest) =
    text ++ Utf8.replacement ++ Utf8.decode Utf8.initial rest /\
  ab2str (text ++ String c rest) <> text ++ String c rest.
Proof.
  intros Hwf Hc Hmark.
  assert (E : ab2str (text ++ String c rest) =
              text ++ Utf8.replacement ++ Utf8.decode Utf8.initial rest).
  { unfold ab2str, Utf8.stripByteOrderMark. rewrite Hmark.
    rewrite (decode_wellFormed_app (String.length text) text _ (le_n _) Hwf).
    f_equal. cbn [Utf8.decode Utf8.initial Utf8.needed Nat.eqb].
    now rewrite (lead_of_stray_byte c Hc). }
  split; [exact E|]. rewrite E. intros H.
  apply append_same_length in H as [_ H]; [|reflexivity].
  injection H as H _. subst c. discriminate.
Qed.

Lemma stray_byte_is_replaced_latin1 :
  ab2str ("a" ++ String (ascii_of_nat 160) EmptyString) =
    "a" ++ Utf8.replacement ++ Utf8.decode Utf8.initial EmptyString /\
  ab2str ("a" ++ String (ascii_of_nat 160) EmptyString) <>
    "a" ++ String (ascii_of_nat 160) EmptyString.
Proof.
  apply (stray_byte_is_replaced "a" EmptyString (ascii_of_nat 160)); reflexivity.
Defined.
